(** * PomoDoro: the cycle state machine of [pomodoro.py]

    A shallow embedding of the timer logic of the [UltimatePomodoro] widget
    (methods [tick_timer], [toggle_timer], [finish_cycle], [reset_timer],
    [set_work_time], [set_break_time], [set_total_cycles]) and of the
    [AudioManager] it drives.  Python integers are unbounded, so they are
    modelled by [Z].  The widget object [self] is threaded through a small
    state monad which also records, in order, the calls the methods make to
    their external collaborators (repaint requests, the audio manager, the
    modal notification dialog and the settings store).  The second half of
    the definitions covers the settings store, the theme catalog and what
    the presentation shell computes with integers: docking, the mouse
    handlers, the clock text and the menu commands. *)

From Stdlib Require Import ZArith String List Bool Lia DecimalString.
Import ListNotations.
Open Scope string_scope.
Open Scope list_scope.
Open Scope Z_scope.

(** ** Data model *)

(** [self.mode] only ever holds the strings "WORK" and "BREAK". *)
Inductive Mode : Type := WORK | BREAK.

Definition Mode_eqb (a b : Mode) : bool :=
  match a, b with
  | WORK, WORK | BREAK, BREAK => true
  | _, _ => false
  end.

(** The fields of [UltimatePomodoro] that the timer logic reads or writes.
    Durations are in minutes, [total_time] and [current_time] in seconds. *)
Record UltimatePomodoro : Type := mkPomodoro {
  work_duration   : Z;
  break_duration  : Z;
  target_cycles   : Z;
  current_theme   : string;
  custom_mp3_path : string;
  total_time      : Z;
  current_time    : Z;
  is_running      : bool;
  mode            : Mode;
  current_cycle   : Z
}.

(** Calls made to the collaborators of the widget, in program order. *)
Inductive event : Type :=
| ev_update                                    (* self.update() *)
| ev_audio_play (file_path : string)           (* self.audio_mgr.play(p) *)
| ev_audio_stop                                (* self.audio_mgr.stop() *)
| ev_dialog (title msg theme : string)         (* ThemeDialog(..).exec() *)
| ev_set_value (key : string) (value : Z).     (* self.settings.setValue *)

(** ** The method monad: state of [self] plus the log of emitted calls *)

Module Method.

Definition M (A : Type) : Type :=
  UltimatePomodoro -> A * UltimatePomodoro * list event.

Definition ret {A} (a : A) : M A := fun s => (a, s, []).

Definition bind {A B} (m : M A) (k : A -> M B) : M B :=
  fun s =>
    let r1 := m s in
    let r2 := k (fst (fst r1)) (snd (fst r1)) in
    (fst (fst r2), snd (fst r2), snd r1 ++ snd r2).

Definition gets {A} (f : UltimatePomodoro -> A) : M A :=
  fun s => (f s, s, []).

Definition modify (f : UltimatePomodoro -> UltimatePomodoro) : M unit :=
  fun s => (tt, f s, []).

Definition emit (e : event) : M unit := fun s => (tt, s, [e]).

(** [if b: body] with no [else]. *)
Definition when (b : bool) (body : M unit) : M unit :=
  if b then body else ret tt.

(** Final state and emitted calls of a method run. *)
Definition exec {A} (m : M A) (s : UltimatePomodoro) : UltimatePomodoro :=
  snd (fst (m s)).

Definition events {A} (m : M A) (s : UltimatePomodoro) : list event :=
  snd (m s).

End Method.
Import Method.

Declare Scope method_scope.
Delimit Scope method_scope with method.
Notation "x <- m ;; k" := (bind m (fun x => k))
  (at level 61, m at next level, right associativity) : method_scope.
Notation "m ;; k" := (bind m (fun _ => k))
  (at level 61, right associativity) : method_scope.
Open Scope method_scope.

(** Attribute assignments [self.f = v]. *)
Definition set_work_duration (v : Z) : M unit :=
  modify (fun s => mkPomodoro v (break_duration s) (target_cycles s)
    (current_theme s) (custom_mp3_path s) (total_time s) (current_time s)
    (is_running s) (mode s) (current_cycle s)).

Definition set_break_duration (v : Z) : M unit :=
  modify (fun s => mkPomodoro (work_duration s) v (target_cycles s)
    (current_theme s) (custom_mp3_path s) (total_time s) (current_time s)
    (is_running s) (mode s) (current_cycle s)).

Definition set_target_cycles (v : Z) : M unit :=
  modify (fun s => mkPomodoro (work_duration s) (break_duration s) v
    (current_theme s) (custom_mp3_path s) (total_time s) (current_time s)
    (is_running s) (mode s) (current_cycle s)).

Definition set_total_time (v : Z) : M unit :=
  modify (fun s => mkPomodoro (work_duration s) (break_duration s)
    (target_cycles s) (current_theme s) (custom_mp3_path s) v (current_time s)
    (is_running s) (mode s) (current_cycle s)).

Definition set_current_time (v : Z) : M unit :=
  modify (fun s => mkPomodoro (work_duration s) (break_duration s)
    (target_cycles s) (current_theme s) (custom_mp3_path s) (total_time s) v
    (is_running s) (mode s) (current_cycle s)).

Definition set_is_running (v : bool) : M unit :=
  modify (fun s => mkPomodoro (work_duration s) (break_duration s)
    (target_cycles s) (current_theme s) (custom_mp3_path s) (total_time s)
    (current_time s) v (mode s) (current_cycle s)).

Definition set_mode (v : Mode) : M unit :=
  modify (fun s => mkPomodoro (work_duration s) (break_duration s)
    (target_cycles s) (current_theme s) (custom_mp3_path s) (total_time s)
    (current_time s) (is_running s) v (current_cycle s)).

Definition set_current_cycle (v : Z) : M unit :=
  modify (fun s => mkPomodoro (work_duration s) (break_duration s)
    (target_cycles s) (current_theme s) (custom_mp3_path s) (total_time s)
    (current_time s) (is_running s) (mode s) v).

(** ** Notification texts *)

(** [str(n)] for a Python int, as an f-string renders it. *)
Definition str (n : Z) : string := NilZero.string_of_int (Z.to_int n).

Definition nl : string := String (Ascii.ascii_of_nat 10) EmptyString.

Definition title_focus_done : string := "专注结束".
Definition msg_focus_done (cycle target : Z) : string :=
  ("当前是第 " ++ str cycle ++ " / " ++ str target ++ " 轮专注！" ++ nl
   ++ "现在放松一下喝口水吧~ 🥤")%string.

Definition title_plan_done : string := "恭喜！🎉".
Definition msg_plan_done : string :=
  ("真棒！你在成为更好的自己！" ++ nl ++ "今日专注计划已完成。")%string.

Definition title_next_focus : string := "准备开始".
Definition msg_next_focus : string :=
  ("休息结束，电量充满！" ++ nl ++ "准备进入下一轮专注。💪")%string.

(** The keys of [self.themes]; [themes.get(name, themes["Doro"])] falls back
    to the entry "Doro" for any other name. *)
Definition themes : list string :=
  ["Doro"; "Bubblegum Pop"; "Lemon Meringue"; "Mint Chocolate";
   "Lavender Haze"; "Sky Blue Dream"; "Cyberpunk"; "Peach Oolong"]%string.

Definition themes_get (name : string) : string :=
  if existsb (String.eqb name) themes then name else "Doro"%string.

(** ** The timer methods of [UltimatePomodoro] *)

(** [__init__], restricted to the timer fields.  The arguments are the values
    read from the settings store (defaults 25, 5, 4, "Doro", ""). *)
Definition init (work_duration break_duration target_cycles : Z)
    (theme mp3 : string) : UltimatePomodoro :=
  let total_time := work_duration * 60 in
  mkPomodoro work_duration break_duration target_cycles theme mp3
             total_time total_time false WORK 1.

Definition default_init : UltimatePomodoro := init 25 5 4 "Doro" "".

Definition reset_timer : M unit :=
  set_is_running false ;;
  m <- gets mode ;;
  duration <- (if Mode_eqb m WORK then gets work_duration
               else gets break_duration) ;;
  set_total_time (duration * 60) ;;
  t <- gets total_time ;;
  set_current_time t ;;
  emit ev_update.

Definition toggle_timer : M unit :=
  r <- gets is_running ;;
  set_is_running (negb r).

Definition finish_cycle : M unit :=
  set_is_running false ;;
  emit ev_update ;;
  p <- gets custom_mp3_path ;;
  emit (ev_audio_play p) ;;
  m <- gets mode ;;
  note <-
    (if Mode_eqb m WORK then
       cc <- gets current_cycle ;;
       tc <- gets target_cycles ;;
       set_mode BREAK ;;
       bd <- gets break_duration ;;
       set_total_time (bd * 60) ;;
       t <- gets total_time ;;
       set_current_time t ;;
       set_is_running true ;;
       ret (title_focus_done, msg_focus_done cc tc)
     else
       cc <- gets current_cycle ;;
       tc <- gets target_cycles ;;
       if cc >=? tc then
         set_current_cycle 1 ;;
         set_mode WORK ;;
         wd <- gets work_duration ;;
         set_total_time (wd * 60) ;;
         t <- gets total_time ;;
         set_current_time t ;;
         set_is_running false ;;
         ret (title_plan_done, msg_plan_done)
       else
         set_current_cycle (cc + 1) ;;
         set_mode WORK ;;
         wd <- gets work_duration ;;
         set_total_time (wd * 60) ;;
         t <- gets total_time ;;
         set_current_time t ;;
         set_is_running true ;;
         ret (title_next_focus, msg_next_focus)) ;;
  th <- gets current_theme ;;
  emit (ev_dialog (fst note) (snd note) (themes_get th)) ;;
  emit ev_audio_stop.

Definition tick_timer : M unit :=
  r <- gets is_running ;;
  when r
    (t <- gets current_time ;;
     set_current_time (t - 1) ;;
     t' <- gets current_time ;;
     when (t' <=? 0) finish_cycle).

(** *** Configuration commands

    Each command opens [QInputDialog.getInt(parent, title, label, value, min,
    max)], a toolkit call.  What the user does with the dialog is an input of
    the method: [getInt value min max] is the pair [(t, ok)] that the call
    returns. *)
Definition QInputDialog : Type := Z -> Z -> Z -> Z * bool.

(** The toolkit's contract for an integer input dialog: over a range that
    is not empty, an accepted value lies between the [min] and [max] handed
    to the dialog. *)
Definition getInt_in_range (getInt : QInputDialog) : Prop :=
  forall value lo hi,
    lo <= hi ->
    snd (getInt value lo hi) = true -> lo <= fst (getInt value lo hi) <= hi.

(** Two dialog sessions used in the examples below.  [enter t]: the spin box
    of the dialog is set to [t] and the dialog is confirmed; a spin box only
    holds values of its range, so what comes back is [t] bounded to
    [min..max], accepted, which is [(t, true)] for every [t] in range.
    [cancel]: the toolkit hands back the initial value, not accepted. *)
Definition enter (t : Z) : QInputDialog :=
  fun _ lo hi => (Z.max lo (Z.min hi t), true).
Definition cancel : QInputDialog := fun value _ _ => (value, false).

Definition set_work_time (getInt : QInputDialog) : M unit :=
  wd <- gets work_duration ;;
  let r := getInt wd 1 120 in
  when (snd r)
    (set_work_duration (fst r) ;;
     emit (ev_set_value "work_duration" (fst r)) ;;
     m <- gets mode ;;
     when (Mode_eqb m WORK) reset_timer).

Definition set_break_time (getInt : QInputDialog) : M unit :=
  bd <- gets break_duration ;;
  let r := getInt bd 1 60 in
  when (snd r)
    (set_break_duration (fst r) ;;
     emit (ev_set_value "break_duration" (fst r)) ;;
     m <- gets mode ;;
     when (Mode_eqb m BREAK) reset_timer).

Definition set_total_cycles (getInt : QInputDialog) : M unit :=
  tc <- gets target_cycles ;;
  let r := getInt tc 1 20 in
  when (snd r)
    (set_target_cycles (fst r) ;;
     emit (ev_set_value "target_cycles" (fst r)) ;;
     set_current_cycle 1).

(** ** The audio manager *)

(** The file system and the mixer as [AudioManager.play] sees them:
    [os.path.exists], and whether [pygame.mixer.music.load]/[play] go through
    for a file (they raise otherwise, and [play] swallows the exception). *)
Record Env : Type := mkEnv {
  path_exists : string -> bool;
  mixer_loads : string -> bool
}.

(** [music] is the file the mixer is looping, [None] when it is silent. *)
Record AudioManager : Type := mkAudio {
  is_ready      : bool;
  builtin_alarm : option string;
  music         : option string
}.

Definition set_music (m : option string) (a : AudioManager) : AudioManager :=
  mkAudio (is_ready a) (builtin_alarm a) m.

(** Truthiness of a Python string. *)
Definition truthy (p : string) : bool := negb (String.eqb p "").

(** [pygame.mixer.music.load(p); pygame.mixer.music.play(-1)] inside the
    [try] block. *)
Definition load_and_loop (env : Env) (p : string) (a : AudioManager)
    : AudioManager :=
  if mixer_loads env p then set_music (Some p) a else a.

Definition play (env : Env) (file_path : string) (a : AudioManager)
    : AudioManager :=
  if negb (is_ready a) then a
  else
    let a := set_music None a in
    if truthy file_path && path_exists env file_path then
      load_and_loop env file_path a
    else
      match builtin_alarm a with
      | Some b => if truthy b then load_and_loop env b a else a
      | None => a
      end.

Definition stop (a : AudioManager) : AudioManager :=
  if is_ready a then set_music None a else a.

(** The effect of a log of emitted calls on the audio manager. *)
Definition audio_step (env : Env) (a : AudioManager) (e : event)
    : AudioManager :=
  match e with
  | ev_audio_play p => play env p a
  | ev_audio_stop => stop a
  | _ => a
  end.

Definition audio_run (env : Env) (evs : list event) (a : AudioManager)
    : AudioManager :=
  fold_left (audio_step env) evs a.

(** Number of notification dialogs in a log, and the log up to and including
    the first dialog (the moment the notification is on screen). *)
Definition is_dialog (e : event) : bool :=
  match e with ev_dialog _ _ _ => true | _ => false end.

Definition notifications (evs : list event) : nat :=
  length (filter is_dialog evs).

Fixpoint until_dialog (evs : list event) : list event :=
  match evs with
  | [] => []
  | e :: rest => if is_dialog e then [e] else e :: until_dialog rest
  end.

(** ** Runs of the state machine *)

(** The commands that reach the timer: the one-second tick, a click on the
    start/stop button, the menu entries, and a direct [finish_cycle]. *)
Inductive op : Type :=
| op_tick
| op_toggle
| op_reset
| op_finish
| op_set_work (getInt : QInputDialog)
| op_set_break (getInt : QInputDialog)
| op_set_cycles (getInt : QInputDialog).

Definition run_op (o : op) : M unit :=
  match o with
  | op_tick => tick_timer
  | op_toggle => toggle_timer
  | op_reset => reset_timer
  | op_finish => finish_cycle
  | op_set_work d => set_work_time d
  | op_set_break d => set_break_time d
  | op_set_cycles d => set_total_cycles d
  end.

(** A command is admissible when its dialog, if any, obeys the toolkit. *)
Definition op_ok (o : op) : Prop :=
  match o with
  | op_set_work d | op_set_break d | op_set_cycles d => getInt_in_range d
  | _ => True
  end.

Fixpoint run (ops : list op) (s : UltimatePomodoro) : UltimatePomodoro :=
  match ops with
  | [] => s
  | o :: rest => run rest (exec (run_op o) s)
  end.

Inductive reachable (s0 : UltimatePomodoro) : UltimatePomodoro -> Prop :=
| reach_init : reachable s0 s0
| reach_step (s : UltimatePomodoro) (o : op) :
    reachable s0 s -> op_ok o -> reachable s0 (exec (run_op o) s).

(** [n] consecutive one-second ticks. *)
Fixpoint ticks (n : nat) (s : UltimatePomodoro) : UltimatePomodoro :=
  match n with
  | O => s
  | S k => ticks k (exec tick_timer s)
  end.

(** The state between the two statements of a running [tick_timer]: one
    second has been taken off [current_time], nothing else has changed. *)
Definition decremented (s : UltimatePomodoro) : UltimatePomodoro :=
  exec (set_current_time (current_time s - 1)) s.

(** The bounds the configuration menu enforces. *)
Definition config_in_bounds (w b c : Z) : Prop :=
  1 <= w <= 120 /\ 1 <= b <= 60 /\ 1 <= c <= 20.

(** The state invariant carried along every run. *)
Record well_formed (s : UltimatePomodoro) : Prop := mk_wf {
  wf_config : config_in_bounds (work_duration s) (break_duration s)
                               (target_cycles s);
  wf_cycle  : 1 <= current_cycle s <= target_cycles s;
  wf_time   : 1 <= current_time s <= total_time s
}.

(** Named states used by the examples: a running work segment with one second
    left, and the break that follows a full default work segment. *)
Definition last_second : UltimatePomodoro :=
  ticks 1499 (exec toggle_timer default_init).

Definition on_break : UltimatePomodoro :=
  ticks 1500 (exec toggle_timer default_init).

(** The last break of a two-round plan of one-minute segments: three full
    segments after the start, in round 2 of 2. *)
Definition second_break : UltimatePomodoro :=
  ticks 180 (exec toggle_timer (init 1 1 2 "Doro" "")).

(** ** Logs of runs *)

(** The calls logged by [n] consecutive ticks, and by a list of commands. *)
Fixpoint ticks_log (n : nat) (s : UltimatePomodoro) : list event :=
  match n with
  | O => []
  | S k => events tick_timer s ++ ticks_log k (exec tick_timer s)
  end.

Fixpoint run_log (ops : list op) (s : UltimatePomodoro) : list event :=
  match ops with
  | [] => []
  | o :: rest => events (run_op o) s ++ run_log rest (exec (run_op o) s)
  end.

(** The duration [reset_timer] picks: the one of the active mode. *)
Definition active_duration (s : UltimatePomodoro) : Z :=
  if Mode_eqb (mode s) WORK then work_duration s else break_duration s.

(** ** The settings store *)

(** The integer keys of the [QSettings] store: [setValue(key, v)] and
    [int(value(key, default))]. *)
Definition QSettings : Type := string -> option Z.

Definition setValue (key : string) (v : Z) (st : QSettings) : QSettings :=
  fun k => if String.eqb k key then Some v else st k.

Definition value (st : QSettings) (key : string) (default : Z) : Z :=
  match st key with
  | Some v => v
  | None => default
  end.

(** The effect of a log of emitted calls on the store. *)
Definition settings_step (st : QSettings) (e : event) : QSettings :=
  match e with
  | ev_set_value key v => setValue key v st
  | _ => st
  end.

Definition settings_run (evs : list event) (st : QSettings) : QSettings :=
  fold_left settings_step evs st.

(** [__init__] reading its configuration from the store. *)
Definition init_from_settings (st : QSettings) (theme mp3 : string)
    : UltimatePomodoro :=
  init (value st "work_duration" 25) (value st "break_duration" 5)
       (value st "target_cycles" 4) theme mp3.

(** The store agrees with the configuration the widget holds. *)
Definition in_sync (st : QSettings) (s : UltimatePomodoro) : Prop :=
  value st "work_duration" 25 = work_duration s /\
  value st "break_duration" 5 = break_duration s /\
  value st "target_cycles" 4 = target_cycles s.

(** The first second of a focus segment and of a break in round [k]. *)
Definition work_start (w b c : Z) (theme mp3 : string) (k : Z)
    : UltimatePomodoro :=
  mkPomodoro w b c theme mp3 (w * 60) (w * 60) true WORK k.

Definition break_start (w b c : Z) (theme mp3 : string) (k : Z)
    : UltimatePomodoro :=
  mkPomodoro w b c theme mp3 (b * 60) (b * 60) true BREAK k.

(** ** Themes *)

(** The optional "char_img" entry of a theme of the catalog: only "Doro"
    has one. *)
Definition char_img (theme : string) : option string :=
  if String.eqb theme "Doro" then Some "doro.png" else None.

(** [load_theme_image]: the image file [self.char_pixmap] is built from,
    [None] when the pixmap is cleared. *)
Definition load_theme_image (env : Env) (current_theme : string)
    : option string :=
  match char_img (themes_get current_theme) with
  | Some img_name =>
      if truthy img_name && path_exists env img_name then Some img_name
      else None
  | None => None
  end.

(** ** The presentation shell: docking and the mouse *)

From Stdlib Require QArith.

Definition QPoint : Type := (Z * Z)%type.

Definition QPoint_eqb (p q : QPoint) : bool :=
  (fst p =? fst q) && (snd p =? snd q).

Definition QPoint_sub (p q : QPoint) : QPoint :=
  (fst p - fst q, snd p - snd q).

(** A window rectangle as the toolkit reports it: [top()] is [y()], [left()]
    is [x()] and [right()] is [x() + width() - 1]. *)
Record QRect : Type := mkRect {
  rect_x : Z;
  rect_y : Z;
  rect_width : Z;
  rect_height : Z
}.

Definition rect_top (g : QRect) : Z := rect_y g.
Definition rect_left (g : QRect) : Z := rect_x g.
Definition rect_right (g : QRect) : Z := rect_x g + rect_width g - 1.
Definition topLeft (g : QRect) : QPoint := (rect_x g, rect_y g).
Definition moved_to (p : QPoint) (g : QRect) : QRect :=
  mkRect (fst p) (snd p) (rect_width g) (rect_height g).

(** [self.dock_pos] is [None] or one of the strings 'top', 'left',
    'right'. *)
Inductive Dock : Type := dock_top | dock_left | dock_right.

Definition Dock_eqb (a b : Dock) : bool :=
  match a, b with
  | dock_top, dock_top | dock_left, dock_left | dock_right, dock_right => true
  | _, _ => false
  end.

(** [self.dock_pos == 'name']. *)
Definition dock_is (d : option Dock) (name : Dock) : bool :=
  match d with
  | Some x => Dock_eqb x name
  | None => false
  end.

Definition window_size : Z := 260.
Definition snap_margin : Z := 20.
Definition pull_dist : Z := 50.

(** The fields of the widget the mouse and docking handlers use, around the
    timer state. *)
Record Shell : Type := mkShell {
  timer : UltimatePomodoro;
  dock_pos : option Dock;
  drag_pos : option QPoint;
  is_hovering_btn : bool
}.

Definition set_dock_pos (d : option Dock) (sh : Shell) : Shell :=
  mkShell (timer sh) d (drag_pos sh) (is_hovering_btn sh).

(** [check_docking], run every 50 ms.  [left_button_down] is the test
    [QApplication.mouseButtons() == LeftButton], [geo] the window geometry
    and [screen_width] the width of the screen.  The result is the new shell
    and the end value of the position animation the call starts, if any. *)
Definition check_docking (left_button_down : bool) (geo : QRect)
    (screen_width : Z) (sh : Shell) : Shell * option QPoint :=
  if left_button_down then (sh, None)
  else
    let new_dock_pos :=
      match dock_pos sh with
      | Some d => Some d
      | None =>
          if rect_top geo <? snap_margin then Some dock_top
          else if rect_left geo <? snap_margin then Some dock_left
          else if rect_right geo >? screen_width - snap_margin
               then Some dock_right
          else None
      end in
    match new_dock_pos with
    | None => (sh, None)
    | Some d =>
        let target_pos :=
          match d with
          | dock_top => (rect_x geo, 0)
          | dock_left => (0, rect_y geo)
          | dock_right => (screen_width - window_size, rect_y geo)
          end in
        let anim :=
          if negb (QPoint_eqb (topLeft geo) target_pos) then Some target_pos
          else None in
        let dp := Some d in
        let dp := if dock_is dp dock_top && (rect_y geo >? pull_dist)
                  then None else dp in
        let dp := if dock_is dp dock_left && (rect_x geo >? pull_dist)
                  then None else dp in
        let dp := if dock_is dp dock_right
                     && (rect_x geo <? screen_width - window_size - pull_dist)
                  then None else dp in
        (set_dock_pos dp sh, anim)
    end.

(** The three parts of [check_docking] on their own: the edge a free window
    snaps to, the place a docked window is sent to, and the pull-back test. *)
Definition snap_edge (geo : QRect) (screen_width : Z) : option Dock :=
  if rect_top geo <? snap_margin then Some dock_top
  else if rect_left geo <? snap_margin then Some dock_left
  else if rect_right geo >? screen_width - snap_margin then Some dock_right
  else None.

Definition dock_target (d : Dock) (geo : QRect) (screen_width : Z) : QPoint :=
  match d with
  | dock_top => (rect_x geo, 0)
  | dock_left => (0, rect_y geo)
  | dock_right => (screen_width - window_size, rect_y geo)
  end.

Definition pulled_back (d : Dock) (geo : QRect) (screen_width : Z) : bool :=
  match d with
  | dock_top => rect_y geo >? pull_dist
  | dock_left => rect_x geo >? pull_dist
  | dock_right => rect_x geo <? screen_width - window_size - pull_dist
  end.

(** Where the window rests once the animation started by a call of
    [check_docking] has run: its end value, or the place the window is at. *)
Definition resting_place (geo : QRect) (r : Shell * option QPoint) : QPoint :=
  match snd r with
  | Some target_pos => target_pos
  | None => topLeft geo
  end.

(** Pointer ordinates are floats in the toolkit.  The handlers only compare
    them with [height / 2 + 30] and [height - 40], which are exact, so an
    ordinate is taken as the rational it denotes. *)
Definition Qlt_bool (a b : QArith_base.Q) : bool :=
  match QArith_base.Qcompare a b with
  | Lt => true
  | _ => false
  end.

(** The test both mouse handlers make on the pointer ordinate:
    [y > center_y + 30 and y < self.height() - 40] with
    [center_y = self.height() / 2]. *)
Definition over_button_band (y : QArith_base.Q) (height : Z) : bool :=
  let center_y :=
    QArith_base.Qdiv (QArith_base.inject_Z height) (QArith_base.inject_Z 2) in
  Qlt_bool (QArith_base.Qplus center_y (QArith_base.inject_Z 30)) y
  && Qlt_bool y (QArith_base.inject_Z (height - 40)).

Inductive MouseButton : Type := LeftButton | RightButton | OtherButton.

(** Calls the mouse handlers make. *)
Inductive shell_event : Type :=
| sh_timer (e : event)                (* a call logged by a timer method *)
| sh_update                           (* self.update() *)
| sh_move (p : QPoint)                (* self.move(p) *)
| sh_context_menu (p : QPoint)        (* self.show_context_menu(p) *)
| sh_accept                           (* event.accept() *)
| sh_set_string (key value : string)  (* self.settings.setValue(key, str) *)
| sh_information (title text : string). (* QMessageBox.information *)

(** [mousePressEvent].  [y] is [event.position().y()], [global] is
    [event.globalPosition().toPoint()], [frame_top_left] is
    [self.frameGeometry().topLeft()] and [height] is [self.height()]. *)
Definition mousePressEvent (button : MouseButton) (y : QArith_base.Q)
    (global frame_top_left : QPoint) (height : Z) (sh : Shell)
    : Shell * list shell_event :=
  match button with
  | LeftButton =>
      if match dock_pos sh with None => true | Some _ => false end
         && over_button_band y height
      then
        (mkShell (exec toggle_timer (timer sh)) (dock_pos sh) (drag_pos sh)
                 (is_hovering_btn sh),
         map sh_timer (events toggle_timer (timer sh)) ++ [sh_accept])
      else
        (mkShell (timer sh) (dock_pos sh)
                 (Some (QPoint_sub global frame_top_left))
                 (is_hovering_btn sh),
         [sh_accept])
  | RightButton => (sh, [sh_context_menu global])
  | OtherButton => (sh, [])
  end.

(** [mouseMoveEvent].  [left_only] is [event.buttons() == LeftButton];
    [point_truthy] is the truth value the binding gives a [QPoint]. *)
Definition mouseMoveEvent (left_only : bool) (y : QArith_base.Q)
    (global : QPoint) (height : Z) (point_truthy : QPoint -> bool)
    (sh : Shell) : Shell * list shell_event :=
  let is_on_btn :=
    over_button_band y height
    && negb (match dock_pos sh with Some _ => true | None => false end) in
  let sh := mkShell (timer sh) (dock_pos sh) (drag_pos sh) is_on_btn in
  match drag_pos sh with
  | Some d =>
      if left_only && point_truthy d then
        let undock :=
          match dock_pos sh with
          | Some _ => (set_dock_pos None sh, [sh_update])
          | None => (sh, [])
          end in
        (fst undock,
         snd undock ++ [sh_move (QPoint_sub global d); sh_accept])
      else (sh, [])
  | None => (sh, [])
  end.

(** ** What the widget paints *)

(** [is_urgent] of [paintEvent]. *)
Definition is_urgent (s : UltimatePomodoro) : bool :=
  (current_time s <=? 5) && is_running s.

(** [f"{n:02d}"]: the decimal text of [n], zero-padded to two characters. *)
Definition fmt_02d (n : Z) : string :=
  let d := str n in
  if (String.length d <? 2)%nat then ("0" ++ d)%string else d.

(** The clock text of both layouts:
    [mins, secs = divmod(self.current_time, 60)] and
    [f"{mins:02d}:{secs:02d}"]. *)
Definition time_str (current_time : Z) : string :=
  let mins := current_time / 60 in
  let secs := current_time mod 60 in
  (fmt_02d mins ++ ":" ++ fmt_02d secs)%string.

(** ** The alarm entry of the context menu *)




(** ** Menu commands on the alarm file and the theme *)

Definition with_custom_mp3_path (p : string) (s : UltimatePomodoro)
    : UltimatePomodoro :=
  mkPomodoro (work_duration s) (break_duration s) (target_cycles s)
    (current_theme s) p (total_time s) (current_time s) (is_running s)
    (mode s) (current_cycle s).

Definition with_current_theme (name : string) (s : UltimatePomodoro)
    : UltimatePomodoro :=
  mkPomodoro (work_duration s) (break_duration s) (target_cycles s)
    name (custom_mp3_path s) (total_time s) (current_time s) (is_running s)
    (mode s) (current_cycle s).

(** [choose_mp3]; [file_path] is the first component of what
    [QFileDialog.getOpenFileName] returns, empty when the user cancels. *)
Definition choose_mp3 (file_path : string) (s : UltimatePomodoro)
    : UltimatePomodoro * list shell_event :=
  if truthy file_path then
    (with_custom_mp3_path file_path s,
     [sh_set_string "custom_mp3_path" file_path;
      sh_information "成功" "铃声设置成功！"])
  else (s, []).

(** [set_theme]; the second component is the new [self.char_pixmap]. *)
Definition set_theme (env : Env) (name : string) (s : UltimatePomodoro)
    : UltimatePomodoro * option string * list shell_event :=
  (with_current_theme name s, load_theme_image env name,
   [sh_set_string "theme" name; sh_update]).


(** * Properties *)

(** Unfolds a method down to the record it builds and the calls it logs. *)
Ltac method_cbv :=
  cbv [finish_cycle tick_timer reset_timer toggle_timer set_work_time
       set_break_time set_total_cycles run_op decremented
       set_work_duration set_break_duration set_target_cycles set_total_time
       set_current_time set_is_running set_mode set_current_cycle
       bind ret gets modify emit when exec events fst snd app Mode_eqb
       work_duration break_duration target_cycles current_theme custom_mp3_path
       total_time current_time is_running mode current_cycle].

Ltac method_cbv_in H :=
  cbv [finish_cycle tick_timer reset_timer toggle_timer set_work_time
       set_break_time set_total_cycles run_op decremented
       set_work_duration set_break_duration set_target_cycles set_total_time
       set_current_time set_is_running set_mode set_current_cycle
       bind ret gets modify emit when exec events fst snd app Mode_eqb
       work_duration break_duration target_cycles current_theme custom_mp3_path
       total_time current_time is_running mode current_cycle] in H.

(** ** Equations of the methods *)

Lemma finish_cycle_from_work s :
  mode s = WORK ->
  exec finish_cycle s =
    mkPomodoro (work_duration s) (break_duration s) (target_cycles s)
      (current_theme s) (custom_mp3_path s)
      (break_duration s * 60) (break_duration s * 60) true BREAK
      (current_cycle s).
Proof.
  destruct s as [wd bd tc th mp tot ct r m cc]; cbn [mode]; intros ->.
  reflexivity.
Qed.

Lemma finish_cycle_next_round s :
  mode s = BREAK -> current_cycle s < target_cycles s ->
  exec finish_cycle s =
    mkPomodoro (work_duration s) (break_duration s) (target_cycles s)
      (current_theme s) (custom_mp3_path s)
      (work_duration s * 60) (work_duration s * 60) true WORK
      (current_cycle s + 1).
Proof.
  destruct s as [wd bd tc th mp tot ct r m cc]; cbn [mode current_cycle
    target_cycles]; intros -> Hlt.
  method_cbv. destruct (Z.geb_spec cc tc); [lia | reflexivity].
Qed.

Lemma finish_cycle_plan_done s :
  mode s = BREAK -> current_cycle s >= target_cycles s ->
  exec finish_cycle s =
    mkPomodoro (work_duration s) (break_duration s) (target_cycles s)
      (current_theme s) (custom_mp3_path s)
      (work_duration s * 60) (work_duration s * 60) false WORK 1.
Proof.
  destruct s as [wd bd tc th mp tot ct r m cc]; cbn [mode current_cycle
    target_cycles]; intros -> Hge.
  method_cbv. destruct (Z.geb_spec cc tc); [reflexivity | lia].
Qed.

Lemma finish_cycle_reseeds s :
  current_time (exec finish_cycle s) = total_time (exec finish_cycle s).
Proof.
  destruct (mode s) eqn:Hm.
  - rewrite (finish_cycle_from_work s Hm). reflexivity.
  - destruct (Z_lt_ge_dec (current_cycle s) (target_cycles s)) as [Hc|Hc].
    + rewrite (finish_cycle_next_round s Hm Hc). reflexivity.
    + rewrite (finish_cycle_plan_done s Hm Hc). reflexivity.
Qed.

Lemma tick_timer_paused s :
  is_running s = false -> tick_timer s = (tt, s, []).
Proof.
  destruct s as [wd bd tc th mp tot ct r m cc]; cbn [is_running]; intros ->.
  reflexivity.
Qed.

Lemma tick_timer_running s :
  is_running s = true ->
  tick_timer s = if current_time s - 1 <=? 0 then finish_cycle (decremented s)
                 else (tt, decremented s, []).
Proof.
  destruct s as [wd bd tc th mp tot ct r m cc]; cbn [is_running]; intros ->.
  method_cbv. destruct (ct - 1 <=? 0); [|reflexivity].
  destruct m; [reflexivity|]. destruct (cc >=? tc); reflexivity.
Qed.

Lemma reset_timer_eq s :
  reset_timer s =
    (tt,
     mkPomodoro (work_duration s) (break_duration s) (target_cycles s)
       (current_theme s) (custom_mp3_path s)
       ((match mode s with WORK => work_duration s | BREAK => break_duration s
         end) * 60)
       ((match mode s with WORK => work_duration s | BREAK => break_duration s
         end) * 60)
       false (mode s) (current_cycle s),
     [ev_update]).
Proof.
  destruct s as [wd bd tc th mp tot ct r m cc]. destruct m; reflexivity.
Qed.

Lemma finish_cycle_log s :
  events finish_cycle s =
    [ev_update;
     ev_audio_play (custom_mp3_path s);
     ev_dialog
       (match mode s with
        | WORK => title_focus_done
        | BREAK => if current_cycle s >=? target_cycles s
                   then title_plan_done else title_next_focus
        end)
       (match mode s with
        | WORK => msg_focus_done (current_cycle s) (target_cycles s)
        | BREAK => if current_cycle s >=? target_cycles s
                   then msg_plan_done else msg_next_focus
        end)
       (themes_get (current_theme s));
     ev_audio_stop].
Proof.
  destruct s as [wd bd tc th mp tot ct r m cc]. destruct m; [reflexivity|].
  method_cbv. destruct (cc >=? tc); reflexivity.
Qed.

Lemma finish_cycle_notifications s :
  notifications (events finish_cycle s) = 1%nat.
Proof. rewrite finish_cycle_log. reflexivity. Qed.

Lemma enter_in_range t : getInt_in_range (enter t).
Proof. intros value lo hi Hle _. unfold enter. cbn [fst]. lia. Qed.

Lemma cancel_in_range : getInt_in_range cancel.
Proof. intros value lo hi _. unfold cancel. cbn [snd]. discriminate. Qed.

(** ** The transition table *)

(** C1. [finish_cycle] follows the transition table: from WORK it goes to
    BREAK, running, with the cycle count unchanged; from BREAK below the
    target it goes to WORK, running, with the cycle count plus one; from
    BREAK at or above the target it goes to WORK, stopped, with the cycle
    count back at 1.  In every case [total_time] becomes the new mode's
    configured minutes times 60 and [current_time] equals [total_time]; the
    configured durations and the target are left alone. *)
Theorem finish_cycle_transition (s : UltimatePomodoro) :
  let s' := exec finish_cycle s in
  (mode s = WORK ->
     mode s' = BREAK /\ is_running s' = true /\
     current_cycle s' = current_cycle s /\
     total_time s' = break_duration s * 60) /\
  (mode s = BREAK -> current_cycle s < target_cycles s ->
     mode s' = WORK /\ is_running s' = true /\
     current_cycle s' = current_cycle s + 1 /\
     total_time s' = work_duration s * 60) /\
  (mode s = BREAK -> current_cycle s >= target_cycles s ->
     mode s' = WORK /\ is_running s' = false /\
     current_cycle s' = 1 /\
     total_time s' = work_duration s * 60) /\
  current_time s' = total_time s' /\
  work_duration s' = work_duration s /\
  break_duration s' = break_duration s /\
  target_cycles s' = target_cycles s.
Proof.
  intros s'. subst s'.
  split; [intros Hm; rewrite (finish_cycle_from_work s Hm); repeat split|].
  split; [intros Hm Hc; rewrite (finish_cycle_next_round s Hm Hc);
          repeat split|].
  split; [intros Hm Hc; rewrite (finish_cycle_plan_done s Hm Hc);
          repeat split|].
  destruct (mode s) eqn:Hm.
  - rewrite (finish_cycle_from_work s Hm). repeat split.
  - destruct (Z_lt_ge_dec (current_cycle s) (target_cycles s)) as [Hc|Hc].
    + rewrite (finish_cycle_next_round s Hm Hc). repeat split.
    + rewrite (finish_cycle_plan_done s Hm Hc). repeat split.
Qed.

(** The three rows of the table on concrete states: the initial work segment;
    a break in round 1 of 4; a break in round 2 of 2. *)
Lemma finish_cycle_transition_witness :
  (mode (exec finish_cycle default_init) = BREAK /\
   is_running (exec finish_cycle default_init) = true /\
   current_cycle (exec finish_cycle default_init) = 1 /\
   total_time (exec finish_cycle default_init) = 5 * 60) /\
  (mode (exec finish_cycle (mkPomodoro 25 5 4 "Doro" "" 300 1 true BREAK 1))
     = WORK /\
   is_running (exec finish_cycle
     (mkPomodoro 25 5 4 "Doro" "" 300 1 true BREAK 1)) = true /\
   current_cycle (exec finish_cycle
     (mkPomodoro 25 5 4 "Doro" "" 300 1 true BREAK 1)) = 1 + 1 /\
   total_time (exec finish_cycle
     (mkPomodoro 25 5 4 "Doro" "" 300 1 true BREAK 1)) = 25 * 60) /\
  (mode (exec finish_cycle (mkPomodoro 1 1 2 "Doro" "" 60 1 true BREAK 2))
     = WORK /\
   is_running (exec finish_cycle
     (mkPomodoro 1 1 2 "Doro" "" 60 1 true BREAK 2)) = false /\
   current_cycle (exec finish_cycle
     (mkPomodoro 1 1 2 "Doro" "" 60 1 true BREAK 2)) = 1 /\
   total_time (exec finish_cycle
     (mkPomodoro 1 1 2 "Doro" "" 60 1 true BREAK 2)) = 1 * 60).
Proof.
  split; [|split].
  - apply (proj1 (finish_cycle_transition default_init)). reflexivity.
  - apply (proj1 (proj2 (finish_cycle_transition
      (mkPomodoro 25 5 4 "Doro" "" 300 1 true BREAK 1)))).
    + reflexivity.
    + cbn. lia.
  - apply (proj1 (proj2 (proj2 (finish_cycle_transition
      (mkPomodoro 1 1 2 "Doro" "" 60 1 true BREAK 2))))).
    + reflexivity.
    + cbn. lia.
Defined.

(** The scenario of the specification: work 1 min, break 1 min, target 2,
    started, then four times sixty ticks. *)
Example two_round_plan :
  let s0 := exec toggle_timer (init 1 1 2 "Doro" "") in
  let s1 := ticks 60 s0 in
  let s2 := ticks 60 s1 in
  let s3 := ticks 60 s2 in
  let s4 := ticks 60 s3 in
  (mode s1, is_running s1, current_cycle s1) = (BREAK, true, 1) /\
  (mode s2, is_running s2, current_cycle s2) = (WORK, true, 2) /\
  (mode s3, is_running s3, current_cycle s3) = (BREAK, true, 2) /\
  (mode s4, is_running s4, current_cycle s4) = (WORK, false, 1).
Proof. vm_compute. repeat split. Qed.

(** ** The tick *)

(** C2. [tick_timer] does nothing when the timer is not running.  When it is
    running it takes exactly one second off [current_time] and then calls
    [finish_cycle] exactly when the decremented value has reached zero (the
    code tests [<= 0]; with at least one second left before the tick, as in
    every well-formed state, that is the value being 0). *)
Theorem tick_timer_spec (s : UltimatePomodoro) :
  (is_running s = false -> tick_timer s = (tt, s, [])) /\
  (is_running s = true ->
     current_time (decremented s) = current_time s - 1 /\
     (current_time s - 1 <= 0 -> tick_timer s = finish_cycle (decremented s)) /\
     (0 < current_time s - 1 -> tick_timer s = (tt, decremented s, [])) /\
     (notifications (events tick_timer s) = 1%nat <->
        current_time s - 1 <= 0) /\
     (1 <= current_time s ->
        (notifications (events tick_timer s) = 1%nat <->
           current_time s - 1 = 0))).
Proof.
  split; [apply tick_timer_paused|].
  intros Hr. pose proof (tick_timer_running s Hr) as E.
  split; [destruct s; reflexivity|].
  assert (Hiff : notifications (events tick_timer s) = 1%nat <->
                 current_time s - 1 <= 0).
  { unfold events. rewrite E.
    destruct (Z.leb_spec (current_time s - 1) 0) as [Hle|Hgt].
    - split; [intros _; exact Hle|].
      intros _. apply (finish_cycle_notifications (decremented s)).
    - split; [cbn; discriminate | lia]. }
  split; [|split; [|split]].
  - intros Hle. rewrite E.
    destruct (Z.leb_spec (current_time s - 1) 0); [reflexivity | lia].
  - intros Hgt. rewrite E.
    destruct (Z.leb_spec (current_time s - 1) 0); [lia | reflexivity].
  - exact Hiff.
  - intros Hpos. rewrite Hiff. lia.
Qed.

(** A paused timer, a running timer in mid-segment, and the last second. *)
Lemma tick_timer_spec_witness :
  tick_timer default_init = (tt, default_init, []) /\
  tick_timer (mkPomodoro 25 5 4 "Doro" "" 1500 1200 true WORK 1) =
    (tt, mkPomodoro 25 5 4 "Doro" "" 1500 1199 true WORK 1, []) /\
  tick_timer (mkPomodoro 25 5 4 "Doro" "" 1500 1 true WORK 1) =
    finish_cycle (mkPomodoro 25 5 4 "Doro" "" 1500 0 true WORK 1).
Proof.
  split; [|split].
  - apply (proj1 (tick_timer_spec default_init)). reflexivity.
  - apply (proj2 (tick_timer_spec
      (mkPomodoro 25 5 4 "Doro" "" 1500 1200 true WORK 1)) eq_refl).
    cbn. lia.
  - apply (proj2 (tick_timer_spec
      (mkPomodoro 25 5 4 "Doro" "" 1500 1 true WORK 1)) eq_refl).
    cbn. lia.
Defined.

(** ** Notification and alarm *)

(** C5. One call of [finish_cycle] opens exactly one notification dialog.
    The calls it makes are, in order: a repaint request, [audio_mgr.play] on
    the configured alarm path, the dialog, and [audio_mgr.stop] once the
    dialog has returned.  So when the dialog is on screen a ready audio
    manager is looping the alarm (the custom file when it exists, the
    built-in tone otherwise), and after the acknowledgement it is silent. *)
Theorem finish_cycle_one_notification
    (s : UltimatePomodoro) (env : Env) (a : AudioManager) :
  notifications (events finish_cycle s) = 1%nat /\
  (exists title msg,
     events finish_cycle s =
       [ev_update; ev_audio_play (custom_mp3_path s);
        ev_dialog title msg (themes_get (current_theme s)); ev_audio_stop]) /\
  audio_run env (until_dialog (events finish_cycle s)) a =
    play env (custom_mp3_path s) a /\
  audio_run env (events finish_cycle s) a =
    stop (play env (custom_mp3_path s) a) /\
  (is_ready a = true ->
     music (audio_run env (events finish_cycle s) a) = None) /\
  (is_ready a = true ->
     truthy (custom_mp3_path s) = true ->
     path_exists env (custom_mp3_path s) = true ->
     mixer_loads env (custom_mp3_path s) = true ->
     music (audio_run env (until_dialog (events finish_cycle s)) a) =
       Some (custom_mp3_path s)) /\
  (forall b,
     is_ready a = true ->
     truthy (custom_mp3_path s) && path_exists env (custom_mp3_path s)
       = false ->
     builtin_alarm a = Some b -> truthy b = true ->
     mixer_loads env b = true ->
     music (audio_run env (until_dialog (events finish_cycle s)) a) = Some b).
Proof.
  split; [apply finish_cycle_notifications|].
  split; [rewrite finish_cycle_log; eauto|].
  rewrite finish_cycle_log. cbn [until_dialog is_dialog audio_run fold_left
    audio_step].
  split; [reflexivity|]. split; [reflexivity|].
  split; [|split].
  - intros Hr. unfold stop.
    assert (Hr' : is_ready (play env (custom_mp3_path s) a) = true).
    { unfold play, load_and_loop. rewrite Hr. cbn [negb].
      repeat match goal with
             | |- context [if ?c then _ else _] => destruct c
             | |- context [match ?c with Some _ => _ | None => _ end] =>
                 destruct c
             end; cbn; exact Hr. }
    rewrite Hr'. reflexivity.
  - intros Hr Ht He Hl. unfold play, load_and_loop.
    rewrite Hr, Ht, He, Hl. reflexivity.
  - intros b Hr Hno Hb Ht Hl. unfold play, load_and_loop.
    rewrite Hr, Hno. cbn [negb builtin_alarm set_music].
    rewrite Hb, Ht, Hl. reflexivity.
Qed.

(** The desktop used in the alarm examples: no custom file on disk, a mixer
    that loads what it is given, a ready audio manager with its built-in
    tone. *)
Lemma finish_cycle_one_notification_witness :
  let env := mkEnv (fun _ => false) (fun _ => true) in
  let a := mkAudio true (Some "/tmp/tmpa1b2c3.wav") None in
  music (audio_run env (events finish_cycle last_second) a) = None /\
  music (audio_run env (until_dialog (events finish_cycle last_second)) a) =
    Some "/tmp/tmpa1b2c3.wav".
Proof.
  intros env a. split.
  - apply (proj1 (proj2 (proj2 (proj2 (proj2
      (finish_cycle_one_notification last_second env a)))))).
    reflexivity.
  - apply (proj2 (proj2 (proj2 (proj2 (proj2 (proj2
      (finish_cycle_one_notification last_second env a))))))).
    + reflexivity.
    + vm_compute. reflexivity.
    + reflexivity.
    + reflexivity.
    + reflexivity.
Defined.

(** ** Start and stop *)

(** C9. [toggle_timer] negates [is_running], leaves every other field as it
    was and calls no collaborator; on a paused timer it sets [is_running]
    without touching [current_time]. *)
Theorem toggle_timer_frame (s : UltimatePomodoro) :
  toggle_timer s =
    (tt,
     mkPomodoro (work_duration s) (break_duration s) (target_cycles s)
       (current_theme s) (custom_mp3_path s) (total_time s) (current_time s)
       (negb (is_running s)) (mode s) (current_cycle s),
     []) /\
  (is_running s = false ->
     is_running (exec toggle_timer s) = true /\
     current_time (exec toggle_timer s) = current_time s).
Proof.
  split; [reflexivity|].
  intros Hr. destruct s as [wd bd tc th mp tot ct r m cc].
  cbn in Hr. subst r. split; reflexivity.
Qed.

Lemma toggle_timer_frame_witness :
  is_running (exec toggle_timer default_init) = true /\
  current_time (exec toggle_timer default_init) = 1500.
Proof.
  apply (proj2 (toggle_timer_frame default_init)). reflexivity.
Defined.

(** ** Configuration *)

(** C10. Whenever the target-cycles dialog is accepted, [current_cycle] is
    set back to 1 whatever its value and whatever the new target; the target
    becomes the accepted value and the running segment is left alone. *)
Theorem set_total_cycles_restarts_count
    (getInt : QInputDialog) (s : UltimatePomodoro) :
  snd (getInt (target_cycles s) 1 20) = true ->
  exec (set_total_cycles getInt) s =
    mkPomodoro (work_duration s) (break_duration s)
      (fst (getInt (target_cycles s) 1 20))
      (current_theme s) (custom_mp3_path s) (total_time s) (current_time s)
      (is_running s) (mode s) 1.
Proof.
  intros Hok. destruct s as [wd bd tc th mp tot ct r m cc].
  method_cbv_in Hok. method_cbv. rewrite Hok. reflexivity.
Qed.

(** Round 3 of 4 in progress; the target is raised to 6, above the current
    round, and the count still restarts at 1. *)
Lemma set_total_cycles_restarts_count_witness :
  exec (set_total_cycles (enter 6))
       (mkPomodoro 25 5 4 "Doro" "" 1500 700 true WORK 3) =
    mkPomodoro 25 5 6 "Doro" "" 1500 700 true WORK 1.
Proof.
  apply (set_total_cycles_restarts_count (enter 6)
           (mkPomodoro 25 5 4 "Doro" "" 1500 700 true WORK 3)).
  reflexivity.
Defined.




(** ** Runs and the state invariant *)

Lemma ticks_snoc n s : ticks (S n) s = exec tick_timer (ticks n s).
Proof.
  revert s. induction n as [|n IH]; intros s; [reflexivity|].
  change (ticks (S (S n)) s) with (ticks (S n) (exec tick_timer s)).
  rewrite IH. reflexivity.
Qed.

Lemma reachable_ticks s0 s n : reachable s0 s -> reachable s0 (ticks n s).
Proof.
  revert s. induction n as [|n IH]; intros s Hs; [exact Hs|].
  cbn [ticks]. apply IH. exact (reach_step s0 s op_tick Hs I).
Qed.

Lemma reachable_run s0 s ops :
  reachable s0 s -> Forall op_ok ops -> reachable s0 (run ops s).
Proof.
  revert s. induction ops as [|o ops IH]; intros s Hs Hok; [exact Hs|].
  inversion Hok as [|o' ops' Ho Hrest]; subst. cbn [run].
  apply IH; [|exact Hrest]. exact (reach_step s0 s o Hs Ho).
Qed.

Lemma init_well_formed w b c theme mp3 :
  config_in_bounds w b c -> well_formed (init w b c theme mp3).
Proof.
  intros Hcfg. pose proof Hcfg as [Hw [Hb Hc]].
  constructor; cbn; [exact Hcfg | lia | lia].
Qed.

Ltac close_wf :=
  constructor; unfold config_in_bounds;
  cbn [work_duration break_duration target_cycles total_time current_time
       current_cycle]; lia.

Lemma finish_cycle_well_formed s :
  config_in_bounds (work_duration s) (break_duration s) (target_cycles s) ->
  1 <= current_cycle s <= target_cycles s ->
  well_formed (exec finish_cycle s).
Proof.
  destruct s as [wd bd tc th mp tot ct r m cc].
  unfold config_in_bounds. cbn [work_duration break_duration target_cycles
    current_cycle]. intros [Hw [Hb Hc]] Hcy.
  method_cbv. destruct m; [close_wf|].
  destruct (Z.geb_spec cc tc); close_wf.
Qed.

Lemma reset_timer_well_formed s :
  well_formed s -> well_formed (exec reset_timer s).
Proof.
  intros [[Hw [Hb Hc]] Hcy Ht]. unfold exec. rewrite reset_timer_eq.
  cbn [fst snd]. destruct (mode s); close_wf.
Qed.

Lemma tick_timer_well_formed s :
  well_formed s -> well_formed (exec tick_timer s).
Proof.
  intros Hwf. destruct (is_running s) eqn:Hr.
  - unfold exec. rewrite (tick_timer_running s Hr).
    destruct (Z.leb_spec (current_time s - 1) 0) as [Hle|Hgt].
    + destruct Hwf as [Hcfg Hcy Ht].
      apply (finish_cycle_well_formed (decremented s)).
      * destruct s; exact Hcfg.
      * destruct s; exact Hcy.
    + destruct Hwf as [[Hw [Hb Hc]] Hcy Ht].
      destruct s as [wd bd tc th mp tot ct r m cc].
      cbn in *. close_wf.
  - unfold exec. rewrite (tick_timer_paused s Hr). exact Hwf.
Qed.

Lemma step_well_formed o s :
  op_ok o -> well_formed s -> well_formed (exec (run_op o) s).
Proof.
  intros Hok Hwf. destruct o; cbn [run_op op_ok] in *.
  - apply tick_timer_well_formed; exact Hwf.
  - destruct Hwf as [[Hw [Hb Hc]] Hcy Ht].
    destruct s as [wd bd tc th mp tot ct r m cc]. cbn in *. close_wf.
  - apply reset_timer_well_formed; exact Hwf.
  - destruct Hwf as [Hcfg Hcy Ht].
    apply finish_cycle_well_formed; assumption.
  - destruct Hwf as [[Hw [Hb Hc]] Hcy Ht].
    pose proof (Hok (work_duration s) 1 120 ltac:(lia)) as Hr.
    destruct s as [wd bd tc th mp tot ct r m cc]. cbn in Hw, Hb, Hc, Hcy, Ht.
    method_cbv. method_cbv_in Hr.
    destruct (getInt wd 1 120) as [t ok]. destruct ok; [|close_wf].
    specialize (Hr eq_refl). destruct m; close_wf.
  - destruct Hwf as [[Hw [Hb Hc]] Hcy Ht].
    pose proof (Hok (break_duration s) 1 60 ltac:(lia)) as Hr.
    destruct s as [wd bd tc th mp tot ct r m cc]. cbn in Hw, Hb, Hc, Hcy, Ht.
    method_cbv. method_cbv_in Hr.
    destruct (getInt bd 1 60) as [t ok]. destruct ok; [|close_wf].
    specialize (Hr eq_refl). destruct m; close_wf.
  - destruct Hwf as [[Hw [Hb Hc]] Hcy Ht].
    pose proof (Hok (target_cycles s) 1 20 ltac:(lia)) as Hr.
    destruct s as [wd bd tc th mp tot ct r m cc]. cbn in Hw, Hb, Hc, Hcy, Ht.
    method_cbv. method_cbv_in Hr.
    destruct (getInt tc 1 20) as [t ok]. destruct ok; [|close_wf].
    specialize (Hr eq_refl). close_wf.
Qed.

Lemma reachable_well_formed s0 s :
  well_formed s0 -> reachable s0 s -> well_formed s.
Proof.
  intros H0 Hreach. induction Hreach as [|s o Hreach IH Hok]; [exact H0|].
  apply step_well_formed; assumption.
Qed.

Lemma ticks_well_formed n s : well_formed s -> well_formed (ticks n s).
Proof.
  revert s. induction n as [|n IH]; intros s Hwf; [exact Hwf|].
  cbn [ticks]. apply IH, tick_timer_well_formed, Hwf.
Qed.

(** Within a segment: [n] ticks that do not use up the remaining time only
    take [n] seconds off [current_time]. *)
Lemma ticks_within_segment n s :
  is_running s = true -> Z.of_nat n < current_time s ->
  ticks n s =
    mkPomodoro (work_duration s) (break_duration s) (target_cycles s)
      (current_theme s) (custom_mp3_path s) (total_time s)
      (current_time s - Z.of_nat n) true (mode s) (current_cycle s).
Proof.
  revert s. induction n as [|n IH]; intros s Hr Hlt.
  - destruct s as [wd bd tc th mp tot ct r m cc]. cbn in Hr. subst r.
    cbn [ticks Z.of_nat]. cbn. f_equal. lia.
  - cbn [ticks]. unfold exec at 1. rewrite (tick_timer_running s Hr).
    destruct (Z.leb_spec (current_time s - 1) 0) as [Hle|Hgt]; [lia|].
    cbn [fst snd]. rewrite IH.
    + destruct s as [wd bd tc th mp tot ct r m cc]. cbn. f_equal. lia.
    + destruct s as [wd bd tc th mp tot ct r m cc]. exact Hr.
    + destruct s as [wd bd tc th mp tot ct r m cc]. cbn in *. lia.
Qed.

(** C3. In every state reached from the initial state (built from a
    configuration within the menu's bounds) by ticks, toggles, resets, direct
    calls of [finish_cycle] and configuration dialogs that obey the toolkit,
    [1 <= current_cycle <= target_cycles]; and in every state whatever,
    finishing a break with the round at or above the target puts
    [current_cycle] back to 1. *)
Theorem current_cycle_invariant
    (w b c : Z) (theme mp3 : string) (s u : UltimatePomodoro) :
  (config_in_bounds w b c ->
   reachable (init w b c theme mp3) s ->
   1 <= current_cycle s <= target_cycles s) /\
  (mode u = BREAK -> current_cycle u >= target_cycles u ->
   current_cycle (exec finish_cycle u) = 1).
Proof.
  split.
  - intros Hcfg Hreach.
    pose proof (reachable_well_formed _ _
                  (init_well_formed w b c theme mp3 Hcfg) Hreach) as Hwf.
    exact (wf_cycle s Hwf).
  - intros Hm Hc. rewrite (finish_cycle_plan_done u Hm Hc). reflexivity.
Qed.

Lemma second_break_reachable :
  reachable (init 1 1 2 "Doro" "") second_break.
Proof.
  apply reachable_ticks.
  exact (reach_step _ _ op_toggle (reach_init _) I).
Qed.

(** The last break of a two-round plan is in round 2; finishing it puts the
    round back to 1.  So does finishing a break in a round above the
    target. *)
Lemma current_cycle_invariant_witness :
  1 <= current_cycle second_break <= target_cycles second_break /\
  current_cycle second_break = 2 /\
  current_cycle (exec finish_cycle second_break) = 1 /\
  current_cycle
    (exec finish_cycle (mkPomodoro 25 5 4 "Doro" "" 300 17 true BREAK 9)) = 1.
Proof.
  assert (Hcfg : config_in_bounds 1 1 2) by (unfold config_in_bounds; lia).
  split; [|split; [|split]].
  - exact (proj1 (current_cycle_invariant 1 1 2 "Doro" "" second_break
                    second_break) Hcfg second_break_reachable).
  - vm_compute. reflexivity.
  - apply (proj2 (current_cycle_invariant 1 1 2 "Doro" "" second_break
                    second_break)).
    + vm_compute. reflexivity.
    + vm_compute. discriminate.
  - apply (proj2 (current_cycle_invariant 25 5 4 "Doro" "" default_init
                    (mkPomodoro 25 5 4 "Doro" "" 300 17 true BREAK 9))).
    + reflexivity.
    + cbn. lia.
Defined.

(** C4. In every state reached the same way,
    [0 <= current_time <= total_time]. *)
Theorem current_time_invariant
    (w b c : Z) (theme mp3 : string) (s : UltimatePomodoro) :
  config_in_bounds w b c ->
  reachable (init w b c theme mp3) s ->
  0 <= current_time s <= total_time s.
Proof.
  intros Hcfg Hreach.
  pose proof (reachable_well_formed _ _
                (init_well_formed w b c theme mp3 Hcfg) Hreach) as Hwf.
  pose proof (wf_time s Hwf). lia.
Qed.

Lemma last_second_reachable : reachable default_init last_second.
Proof.
  apply reachable_ticks.
  exact (reach_step _ _ op_toggle (reach_init _) I).
Qed.

Lemma current_time_invariant_witness :
  0 <= current_time last_second <= total_time last_second.
Proof.
  apply (current_time_invariant 25 5 4 "Doro" "" last_second).
  - unfold config_in_bounds. lia.
  - exact last_second_reachable.
Defined.

(** ** Countdown *)

(** C8, as stated, fails: the tick that takes a running segment from one
    second to zero calls [finish_cycle], which reseeds [current_time] with the
    next segment's full length while the timer keeps running.  Here the
    default work segment has one second left; after the tick the five-minute
    break starts with 300 seconds. *)
Lemma ticks_non_increasing_counterexample :
  reachable default_init last_second /\
  is_running last_second = true /\
  current_time last_second = 1 /\
  is_running (exec tick_timer last_second) = true /\
  current_time (exec tick_timer last_second) = 300 /\
  ~ current_time (exec tick_timer last_second) <= current_time last_second.
Proof.
  split; [exact last_second_reachable|].
  assert (E1 : current_time last_second = 1) by (vm_compute; reflexivity).
  assert (E2 : current_time (exec tick_timer last_second) = 300)
    by (vm_compute; reflexivity).
  repeat split; try (vm_compute; reflexivity).
  rewrite E1, E2. lia.
Qed.

(** C8, amended.  Over any number of ticks from a well-formed running state
    [current_time] is never negative.  While the ticks do not use up the
    segment the timer stays running and each tick takes exactly one second
    off, so [current_time] does not increase.  The tick that reaches zero
    starts the next segment: [current_time] is reseeded with its full
    length, which is more than the one second that was left. *)
Theorem ticks_countdown (s : UltimatePomodoro) (n : nat) :
  well_formed s -> is_running s = true ->
  0 <= current_time (ticks n s) /\
  (Z.of_nat n < current_time s ->
     is_running (ticks n s) = true /\
     current_time (ticks n s) = current_time s - Z.of_nat n) /\
  (Z.of_nat (S n) < current_time s ->
     current_time (ticks (S n) s) <= current_time (ticks n s)) /\
  (is_running (ticks n s) = true -> current_time (ticks n s) = 1 ->
     current_time (ticks (S n) s) = total_time (ticks (S n) s) /\
     current_time (ticks n s) < current_time (ticks (S n) s)).
Proof.
  intros Hwf Hr.
  split; [pose proof (wf_time _ (ticks_well_formed n s Hwf)); lia|].
  split; [intros Hlt; rewrite (ticks_within_segment n s Hr Hlt);
          split; reflexivity|].
  split.
  - intros Hlt.
    rewrite (ticks_within_segment (S n) s Hr Hlt).
    rewrite (ticks_within_segment n s Hr) by lia.
    cbn [current_time]. lia.
  - intros Hrn Hone. rewrite ticks_snoc.
    pose proof (ticks_well_formed n s Hwf) as Hwfn.
    set (u := ticks n s) in *.
    unfold exec. rewrite (tick_timer_running u Hrn).
    destruct (Z.leb_spec (current_time u - 1) 0) as [Hle|Hgt]; [|lia].
    destruct Hwfn as [Hcfg Hcy Ht].
    assert (Hwf' : well_formed (exec finish_cycle (decremented u))).
    { apply finish_cycle_well_formed; destruct u; assumption. }
    pose proof (finish_cycle_reseeds (decremented u)) as Heq.
    unfold exec in Heq, Hwf'.
    split; [exact Heq|].
    rewrite Hone.
    destruct Hcfg as [Hw [Hb Hc]].
    destruct u as [wd bd tc th mp tot ct r m cc].
    cbn in Hw, Hb, Hc, Hcy. clear Heq Hwf'.
    method_cbv. destruct m; [cbn; lia|].
    destruct (Z.geb_spec cc tc); cbn; lia.
Qed.

Lemma ticks_countdown_witness :
  (0 <= current_time (ticks 10 (exec toggle_timer default_init)) /\
   current_time (ticks 10 (exec toggle_timer default_init)) = 1500 - 10 /\
   current_time (ticks 11 (exec toggle_timer default_init)) <=
     current_time (ticks 10 (exec toggle_timer default_init))) /\
  current_time (ticks 0 last_second) < current_time (ticks 1 last_second).
Proof.
  assert (Hwf : well_formed (exec toggle_timer default_init)).
  { constructor; unfold config_in_bounds; cbn; lia. }
  pose proof (ticks_countdown (exec toggle_timer default_init) 10 Hwf eq_refl)
    as [H0 [Hseg [Hstep _]]].
  split; [split; [exact H0 | split]|].
  - apply Hseg. cbn. lia.
  - apply Hstep. cbn. lia.
  - assert (Hwf1 : well_formed last_second).
    { apply ticks_well_formed. exact Hwf. }
    assert (Hr1 : is_running last_second = true) by (vm_compute; reflexivity).
    apply (proj2 (proj2 (proj2 (ticks_countdown last_second 0 Hwf1 Hr1)))).
    + exact Hr1.
    + vm_compute. reflexivity.
Defined.

(** ** Configure, then reset *)

Lemma on_break_reachable : reachable default_init on_break.
Proof.
  apply reachable_ticks.
  exact (reach_step _ _ op_toggle (reach_init _) I).
Qed.

(** C7, as stated, fails when the configured duration is not the one of the
    active mode: during the default five-minute break the work duration is
    set to 30 minutes (accepted, in bounds) and the timer is reset; the
    segment is reseeded with the break's 300 seconds, not with 30 * 60. *)
Lemma configure_then_reset_counterexample :
  reachable default_init on_break /\
  mode on_break = BREAK /\
  enter 30 (work_duration on_break) 1 120 = (30, true) /\
  work_duration (exec (set_work_time (enter 30)) on_break) = 30 /\
  current_time (exec reset_timer (exec (set_work_time (enter 30)) on_break))
    = 300 /\
  total_time (exec reset_timer (exec (set_work_time (enter 30)) on_break))
    = 300 /\
  current_time (exec reset_timer (exec (set_work_time (enter 30)) on_break))
    <> 30 * 60.
Proof.
  split; [exact on_break_reachable|].
  assert (E : current_time
                (exec reset_timer (exec (set_work_time (enter 30)) on_break))
              = 300) by (vm_compute; reflexivity).
  repeat split; try (vm_compute; reflexivity).
  rewrite E. lia.
Qed.

(** C7, amended.  Configuring the duration of the active mode with an
    accepted value [d] and then resetting leaves
    [current_time = total_time = d * 60] and a stopped timer.  Configuring
    the duration of the other mode and then resetting leaves
    [current_time = total_time] at the active mode's own, unchanged,
    configured duration times 60, again with a stopped timer. *)
Theorem configure_then_reset (getInt : QInputDialog) (s : UltimatePomodoro) :
  (mode s = WORK -> snd (getInt (work_duration s) 1 120) = true ->
     let d := fst (getInt (work_duration s) 1 120) in
     let s' := exec reset_timer (exec (set_work_time getInt) s) in
     current_time s' = d * 60 /\ total_time s' = d * 60 /\
     is_running s' = false) /\
  (mode s = BREAK -> snd (getInt (break_duration s) 1 60) = true ->
     let d := fst (getInt (break_duration s) 1 60) in
     let s' := exec reset_timer (exec (set_break_time getInt) s) in
     current_time s' = d * 60 /\ total_time s' = d * 60 /\
     is_running s' = false) /\
  (mode s = BREAK -> snd (getInt (work_duration s) 1 120) = true ->
     let s' := exec reset_timer (exec (set_work_time getInt) s) in
     current_time s' = break_duration s * 60 /\
     total_time s' = break_duration s * 60 /\
     is_running s' = false) /\
  (mode s = WORK -> snd (getInt (break_duration s) 1 60) = true ->
     let s' := exec reset_timer (exec (set_break_time getInt) s) in
     current_time s' = work_duration s * 60 /\
     total_time s' = work_duration s * 60 /\
     is_running s' = false).
Proof.
  destruct s as [wd bd tc th mp tot ct r m cc].
  cbn [mode work_duration break_duration].
  split; [|split; [|split]]; intros Hm Hok; subst m;
    method_cbv_in Hok; method_cbv; rewrite Hok; repeat split.
Qed.

(** Forty minutes of focus configured during a work segment; ten minutes of
    rest configured during a break; thirty minutes of focus configured
    during a break. *)
Lemma configure_then_reset_witness :
  (current_time (exec reset_timer
     (exec (set_work_time (enter 40)) last_second)) = 40 * 60 /\
   total_time (exec reset_timer
     (exec (set_work_time (enter 40)) last_second)) = 40 * 60 /\
   is_running (exec reset_timer
     (exec (set_work_time (enter 40)) last_second)) = false) /\
  (current_time (exec reset_timer
     (exec (set_break_time (enter 10)) on_break)) = 10 * 60 /\
   total_time (exec reset_timer
     (exec (set_break_time (enter 10)) on_break)) = 10 * 60 /\
   is_running (exec reset_timer
     (exec (set_break_time (enter 10)) on_break)) = false) /\
  (current_time (exec reset_timer
     (exec (set_work_time (enter 30)) on_break)) = 5 * 60 /\
   total_time (exec reset_timer
     (exec (set_work_time (enter 30)) on_break)) = 5 * 60 /\
   is_running (exec reset_timer
     (exec (set_work_time (enter 30)) on_break)) = false).
Proof.
  split; [|split].
  - apply (proj1 (configure_then_reset (enter 40) last_second)).
    + vm_compute. reflexivity.
    + reflexivity.
  - apply (proj1 (proj2 (configure_then_reset (enter 10) on_break))).
    + vm_compute. reflexivity.
    + reflexivity.
  - assert (Hb : break_duration on_break = 5) by (vm_compute; reflexivity).
    rewrite <- Hb.
    apply (proj1 (proj2 (proj2 (configure_then_reset (enter 30) on_break)))).
    + vm_compute. reflexivity.
    + reflexivity.
Defined.

(** * Further properties of the timer *)

Lemma ticks_add n m s : ticks (n + m) s = ticks m (ticks n s).
Proof.
  revert s. induction n as [|n IH]; intros s; [reflexivity|].
  cbn [ticks Nat.add]. apply IH.
Qed.

Lemma ticks_log_add n m s :
  ticks_log (n + m) s = ticks_log n s ++ ticks_log m (ticks n s).
Proof.
  revert s. induction n as [|n IH]; intros s; [reflexivity|].
  cbn [ticks ticks_log Nat.add]. rewrite IH, app_assoc. reflexivity.
Qed.

Lemma notifications_app a b :
  notifications (a ++ b) = (notifications a + notifications b)%nat.
Proof. unfold notifications. rewrite filter_app, length_app. reflexivity. Qed.

Lemma ticks_paused n s : is_running s = false -> ticks n s = s.
Proof.
  intros Hr. induction n as [|n IH]; [reflexivity|].
  cbn [ticks]. unfold exec. rewrite (tick_timer_paused s Hr). exact IH.
Qed.

Lemma ticks_log_paused n s : is_running s = false -> ticks_log n s = [].
Proof.
  intros Hr. induction n as [|n IH]; [reflexivity|].
  cbn [ticks_log]. unfold exec, events. rewrite (tick_timer_paused s Hr).
  exact IH.
Qed.

Lemma ticks_log_within_segment n s :
  is_running s = true -> Z.of_nat n < current_time s -> ticks_log n s = [].
Proof.
  revert s. induction n as [|n IH]; intros s Hr Hlt; [reflexivity|].
  cbn [ticks_log]. unfold exec, events. rewrite (tick_timer_running s Hr).
  destruct (Z.leb_spec (current_time s - 1) 0) as [Hle|Hgt]; [lia|].
  cbn [fst snd app]. apply IH.
  - destruct s; exact Hr.
  - destruct s; cbn in *; lia.
Qed.

(** [finish_cycle] looks at neither the clock nor the running flag. *)
Lemma finish_cycle_ignores_clock wd bd tc th mp tot ct r tot' ct' r' m cc :
  finish_cycle (mkPomodoro wd bd tc th mp tot' ct' r' m cc) =
  finish_cycle (mkPomodoro wd bd tc th mp tot ct r m cc).
Proof.
  destruct m; method_cbv; [reflexivity|].
  destruct (cc >=? tc); reflexivity.
Qed.

Lemma ticks_to_expiry s :
  is_running s = true -> 1 <= current_time s ->
  ticks (Z.to_nat (current_time s)) s = exec finish_cycle s /\
  ticks_log (Z.to_nat (current_time s)) s = events finish_cycle s.
Proof.
  intros Hr Hpos.
  replace (Z.to_nat (current_time s))
    with (Z.to_nat (current_time s - 1) + 1)%nat by lia.
  assert (Hlt : Z.of_nat (Z.to_nat (current_time s - 1)) < current_time s)
    by lia.
  rewrite ticks_add, ticks_log_add.
  rewrite (ticks_log_within_segment _ s Hr Hlt).
  rewrite (ticks_within_segment _ s Hr Hlt).
  cbn [ticks ticks_log app]. rewrite app_nil_r.
  unfold exec, events. rewrite tick_timer_running by reflexivity.
  cbn [current_time].
  destruct (Z.leb_spec (current_time s - Z.of_nat (Z.to_nat (current_time s - 1)) - 1) 0)
    as [Hle|Hgt]; [|lia].
  destruct s as [wd bd tc th mp tot ct r m cc].
  unfold decremented, exec, set_current_time, modify.
  cbn [fst snd work_duration break_duration target_cycles current_theme
       custom_mp3_path total_time current_time is_running mode current_cycle].
  rewrite (finish_cycle_ignores_clock wd bd tc th mp tot ct r).
  split; reflexivity.
Qed.

(** ** Pausing *)

(** X1. A paused timer holds: however many ticks arrive while it is paused,
    the state does not change and no collaborator is called, and resuming
    gives back exactly the running state that was paused. *)
Theorem pause_holds_the_countdown (s : UltimatePomodoro) (n : nat) :
  is_running s = true ->
  ticks n (exec toggle_timer s) = exec toggle_timer s /\
  ticks_log n (exec toggle_timer s) = [] /\
  exec toggle_timer (ticks n (exec toggle_timer s)) = s.
Proof.
  intros Hr.
  assert (Hp : is_running (exec toggle_timer s) = false).
  { destruct s as [wd bd tc th mp tot ct r m cc]. cbn in Hr. subst r.
    reflexivity. }
  rewrite (ticks_paused n _ Hp), (ticks_log_paused n _ Hp).
  repeat split.
  destruct s as [wd bd tc th mp tot ct r m cc]. cbn in Hr. subst r.
  reflexivity.
Qed.

Lemma pause_holds_the_countdown_witness :
  exec toggle_timer (ticks 90 (exec toggle_timer last_second)) = last_second.
Proof.
  apply (pause_holds_the_countdown last_second 90).
  vm_compute. reflexivity.
Defined.

(** ** Segments and plans *)

(** X2. A running segment with [t >= 1] seconds left expires on exactly the
    [t]-th tick: fewer ticks log no call at all, and [t] ticks leave the
    state [finish_cycle] builds and log exactly its calls, hence one
    notification. *)
Theorem segment_expires_on_time (s : UltimatePomodoro) :
  is_running s = true -> 1 <= current_time s ->
  (forall k, Z.of_nat k < current_time s -> ticks_log k s = []) /\
  ticks (Z.to_nat (current_time s)) s = exec finish_cycle s /\
  ticks_log (Z.to_nat (current_time s)) s = events finish_cycle s /\
  notifications (ticks_log (Z.to_nat (current_time s)) s) = 1%nat.
Proof.
  intros Hr Hpos. destruct (ticks_to_expiry s Hr Hpos) as [Hs Hl].
  split; [intros k Hk; apply ticks_log_within_segment; assumption|].
  split; [exact Hs|]. split; [exact Hl|].
  rewrite Hl. apply finish_cycle_notifications.
Qed.

Lemma segment_expires_on_time_witness :
  ticks 1500 (exec toggle_timer default_init) =
    exec finish_cycle (exec toggle_timer default_init) /\
  notifications (ticks_log 1500 (exec toggle_timer default_init)) = 1%nat.
Proof.
  assert (H1 : 1 <= current_time (exec toggle_timer default_init))
    by (cbn; lia).
  pose proof (segment_expires_on_time (exec toggle_timer default_init)
                eq_refl H1) as [_ [Hs [_ Hn]]].
  split; [exact Hs | exact Hn].
Defined.

Lemma one_round w b c th mp k :
  1 <= w -> 1 <= b ->
  ticks (Z.to_nat ((w + b) * 60)) (work_start w b c th mp k) =
    (if k >=? c then init w b c th mp else work_start w b c th mp (k + 1)) /\
  notifications (ticks_log (Z.to_nat ((w + b) * 60))
                   (work_start w b c th mp k)) = 2%nat.
Proof.
  intros Hw Hb.
  replace (Z.to_nat ((w + b) * 60))
    with (Z.to_nat (w * 60) + Z.to_nat (b * 60))%nat by lia.
  rewrite ticks_add, ticks_log_add, notifications_app.
  assert (Hws : 1 <= current_time (work_start w b c th mp k))
    by (cbn; lia).
  destruct (ticks_to_expiry (work_start w b c th mp k) eq_refl Hws)
    as [Hs1 Hl1].
  cbn [work_start current_time] in Hs1, Hl1.
  change (mkPomodoro w b c th mp (w * 60) (w * 60) true WORK k)
    with (work_start w b c th mp k) in Hs1, Hl1.
  rewrite Hs1, Hl1, finish_cycle_notifications.
  rewrite (finish_cycle_from_work (work_start w b c th mp k) eq_refl).
  cbn [work_start work_duration break_duration target_cycles current_theme
       custom_mp3_path current_cycle].
  change (mkPomodoro w b c th mp (b * 60) (b * 60) true BREAK k)
    with (break_start w b c th mp k).
  assert (Hbs : 1 <= current_time (break_start w b c th mp k))
    by (cbn; lia).
  destruct (ticks_to_expiry (break_start w b c th mp k) eq_refl Hbs)
    as [Hs2 Hl2].
  cbn [break_start current_time] in Hs2, Hl2.
  change (mkPomodoro w b c th mp (b * 60) (b * 60) true BREAK k)
    with (break_start w b c th mp k) in Hs2, Hl2.
  rewrite Hs2, Hl2, finish_cycle_notifications.
  split; [|reflexivity].
  destruct (Z.geb_spec k c) as [Hge|Hlt].
  - rewrite (finish_cycle_plan_done (break_start w b c th mp k) eq_refl)
      by (cbn; lia).
    reflexivity.
  - rewrite (finish_cycle_next_round (break_start w b c th mp k) eq_refl)
      by (cbn; lia).
    reflexivity.
Qed.

Lemma rounds_to_completion w b c th mp (r : nat) :
  1 <= w -> 1 <= b ->
  forall k, Z.of_nat r = c - k ->
  ticks (Z.to_nat ((Z.of_nat r + 1) * ((w + b) * 60)))
        (work_start w b c th mp k) = init w b c th mp /\
  notifications (ticks_log (Z.to_nat ((Z.of_nat r + 1) * ((w + b) * 60)))
                   (work_start w b c th mp k)) = (2 * (r + 1))%nat.
Proof.
  intros Hw Hb. induction r as [|r IH]; intros k Hk.
  - destruct (one_round w b c th mp k Hw Hb) as [Hs Hn].
    replace ((Z.of_nat 0 + 1) * ((w + b) * 60)) with ((w + b) * 60) by lia.
    rewrite Hs, Hn. destruct (Z.geb_spec k c); [split; reflexivity | lia].
  - destruct (one_round w b c th mp k Hw Hb) as [Hs Hn].
    replace (Z.to_nat ((Z.of_nat (S r) + 1) * ((w + b) * 60)))
      with (Z.to_nat ((w + b) * 60)
            + Z.to_nat ((Z.of_nat r + 1) * ((w + b) * 60)))%nat by lia.
    rewrite ticks_add, ticks_log_add, notifications_app, Hs, Hn.
    destruct (Z.geb_spec k c); [lia|].
    destruct (IH (k + 1)) as [Hs' Hn']; [lia|].
    rewrite Hs', Hn'. split; [reflexivity | lia].
Qed.

(** X3. A whole plan.  Started from the initial state with [w] work minutes,
    [b] break minutes and [c] rounds (each at least 1), the timer is back in
    that very initial state, stopped, in WORK, in round 1 with a full clock,
    after exactly [c * (w + b) * 60] ticks, and has shown [2 * c]
    notifications on the way. *)
Theorem full_plan_returns_to_start (w b c : Z) (theme mp3 : string) :
  1 <= w -> 1 <= b -> 1 <= c ->
  ticks (Z.to_nat (c * ((w + b) * 60)))
        (exec toggle_timer (init w b c theme mp3)) = init w b c theme mp3 /\
  notifications (ticks_log (Z.to_nat (c * ((w + b) * 60)))
                   (exec toggle_timer (init w b c theme mp3)))
    = Z.to_nat (2 * c).
Proof.
  intros Hw Hb Hc.
  change (exec toggle_timer (init w b c theme mp3))
    with (work_start w b c theme mp3 1).
  destruct (rounds_to_completion w b c theme mp3 (Z.to_nat (c - 1)) Hw Hb 1)
    as [Hs Hn]; [lia|].
  replace (Z.of_nat (Z.to_nat (c - 1)) + 1) with c in Hs, Hn by lia.
  rewrite Hs, Hn. split; [reflexivity | lia].
Qed.

Lemma full_plan_returns_to_start_witness :
  ticks (Z.to_nat (4 * ((25 + 5) * 60))) (exec toggle_timer default_init)
    = default_init /\
  notifications (ticks_log (Z.to_nat (4 * ((25 + 5) * 60)))
                   (exec toggle_timer default_init)) = Z.to_nat (2 * 4).
Proof.
  apply (full_plan_returns_to_start 25 5 4 "Doro" ""); lia.
Defined.

(** ** What [total_time] is *)

Lemma step_total_time o s :
  total_time s = active_duration s * 60 ->
  total_time (exec (run_op o) s) = active_duration (exec (run_op o) s) * 60.
Proof.
  intros Hinv. destruct s as [wd bd tc th mp tot ct r m cc].
  unfold active_duration in *. cbn [mode work_duration break_duration
    total_time] in Hinv.
  destruct o; cbn [run_op].
  - destruct r.
    + unfold exec. rewrite tick_timer_running by reflexivity.
      cbn [current_time].
      destruct (ct - 1 <=? 0).
      * method_cbv. destruct m; [reflexivity|].
        destruct (cc >=? tc); reflexivity.
      * destruct m; exact Hinv.
    + destruct m; exact Hinv.
  - destruct m; exact Hinv.
  - destruct m; reflexivity.
  - method_cbv. destruct m; [reflexivity|]. destruct (cc >=? tc); reflexivity.
  - method_cbv. destruct (getInt wd 1 120) as [t ok].
    destruct ok, m; first [reflexivity | exact Hinv].
  - method_cbv. destruct (getInt bd 1 60) as [t ok].
    destruct ok, m; first [reflexivity | exact Hinv].
  - method_cbv. destruct (getInt tc 1 20) as [t ok].
    destruct ok, m; first [reflexivity | exact Hinv].
Qed.

(** X4. In every state reached from an initial state, whatever the
    configuration, [total_time] is the configured duration of the active mode
    times 60: the length of the running segment never lags behind a change of
    the active mode's duration, and a change of the other duration never
    touches it. *)
Theorem total_time_is_active_duration
    (w b c : Z) (theme mp3 : string) (s : UltimatePomodoro) :
  reachable (init w b c theme mp3) s ->
  total_time s = active_duration s * 60.
Proof.
  intros Hreach. induction Hreach as [|s o Hreach IH Hok]; [reflexivity|].
  apply step_total_time. exact IH.
Qed.

Lemma total_time_is_active_duration_witness :
  total_time on_break = active_duration on_break * 60.
Proof.
  apply (total_time_is_active_duration 25 5 4 "Doro" "" on_break).
  exact on_break_reachable.
Defined.

(** X5. Configuring the duration of the mode that is not active is deferred:
    the accepted value is stored and written to the settings, the running
    segment (clock, length, running flag, mode, round) is left as it is, and
    the next [finish_cycle] seeds the new segment with the new duration. *)
Theorem inactive_duration_waits
    (getInt : QInputDialog) (s : UltimatePomodoro) :
  (mode s = BREAK -> snd (getInt (work_duration s) 1 120) = true ->
     set_work_time getInt s =
       (tt,
        mkPomodoro (fst (getInt (work_duration s) 1 120)) (break_duration s)
          (target_cycles s) (current_theme s) (custom_mp3_path s)
          (total_time s) (current_time s) (is_running s) BREAK
          (current_cycle s),
        [ev_set_value "work_duration" (fst (getInt (work_duration s) 1 120))])
     /\
     total_time (exec finish_cycle (exec (set_work_time getInt) s)) =
       fst (getInt (work_duration s) 1 120) * 60) /\
  (mode s = WORK -> snd (getInt (break_duration s) 1 60) = true ->
     set_break_time getInt s =
       (tt,
        mkPomodoro (work_duration s) (fst (getInt (break_duration s) 1 60))
          (target_cycles s) (current_theme s) (custom_mp3_path s)
          (total_time s) (current_time s) (is_running s) WORK
          (current_cycle s),
        [ev_set_value "break_duration" (fst (getInt (break_duration s) 1 60))])
     /\
     total_time (exec finish_cycle (exec (set_break_time getInt) s)) =
       fst (getInt (break_duration s) 1 60) * 60).
Proof.
  destruct s as [wd bd tc th mp tot ct r m cc].
  cbn [mode work_duration break_duration].
  split; intros Hm Hok; subst m; method_cbv_in Hok; method_cbv; rewrite Hok.
  - split; [reflexivity|]. destruct (cc >=? tc); reflexivity.
  - split; reflexivity.
Qed.

Lemma inactive_duration_waits_witness :
  (current_time (exec (set_work_time (enter 50)) on_break) = 300 /\
   total_time (exec finish_cycle (exec (set_work_time (enter 50)) on_break))
     = 50 * 60) /\
  total_time (exec finish_cycle (exec (set_break_time (enter 7)) last_second))
    = 7 * 60.
Proof.
  assert (Hm1 : mode on_break = BREAK) by (vm_compute; reflexivity).
  assert (Hm2 : mode last_second = WORK) by (vm_compute; reflexivity).
  destruct (proj1 (inactive_duration_waits (enter 50) on_break) Hm1 eq_refl)
    as [E1 T1].
  destruct (proj2 (inactive_duration_waits (enter 7) last_second) Hm2 eq_refl)
    as [E2 T2].
  split; [split|].
  - unfold exec. rewrite E1. vm_compute. reflexivity.
  - exact T1.
  - exact T2.
Defined.

(** ** Persistence *)

Lemma settings_run_app a b st :
  settings_run (a ++ b) st = settings_run b (settings_run a st).
Proof. unfold settings_run. apply fold_left_app. Qed.

Lemma settings_run_finish_cycle s st :
  settings_run (events finish_cycle s) st = st.
Proof. rewrite finish_cycle_log. reflexivity. Qed.

Lemma finish_cycle_keeps_config s :
  work_duration (exec finish_cycle s) = work_duration s /\
  break_duration (exec finish_cycle s) = break_duration s /\
  target_cycles (exec finish_cycle s) = target_cycles s.
Proof.
  destruct (mode s) eqn:Hm.
  - rewrite (finish_cycle_from_work s Hm). repeat split.
  - destruct (Z_lt_ge_dec (current_cycle s) (target_cycles s)) as [Hc|Hc].
    + rewrite (finish_cycle_next_round s Hm Hc). repeat split.
    + rewrite (finish_cycle_plan_done s Hm Hc). repeat split.
Qed.

Lemma step_in_sync o s st :
  in_sync st s ->
  in_sync (settings_run (events (run_op o) s) st) (exec (run_op o) s).
Proof.
  intros Hsync. destruct o; cbn [run_op].
  - destruct (is_running s) eqn:Hr.
    + unfold exec, events. rewrite (tick_timer_running s Hr).
      destruct (current_time s - 1 <=? 0).
      * change (snd (finish_cycle (decremented s)))
          with (events finish_cycle (decremented s)).
        rewrite settings_run_finish_cycle.
        change (snd (fst (finish_cycle (decremented s))))
          with (exec finish_cycle (decremented s)).
        destruct (finish_cycle_keeps_config (decremented s)) as [Ew [Eb Ec]].
        unfold in_sync. rewrite Ew, Eb, Ec.
        destruct s; exact Hsync.
      * destruct s; exact Hsync.
    + unfold exec, events. rewrite (tick_timer_paused s Hr). exact Hsync.
  - destruct s; exact Hsync.
  - unfold exec, events. rewrite reset_timer_eq. destruct s; exact Hsync.
  - rewrite settings_run_finish_cycle.
    destruct (finish_cycle_keeps_config s) as [Ew [Eb Ec]].
    unfold in_sync. rewrite Ew, Eb, Ec. exact Hsync.
  - destruct s as [wd bd tc th mp tot ct r m cc]. destruct Hsync as [Hw [Hb Hc]].
    cbn [work_duration break_duration target_cycles] in Hw, Hb, Hc.
    method_cbv. destruct (getInt wd 1 120) as [t ok].
    destruct ok, m; repeat split; assumption.
  - destruct s as [wd bd tc th mp tot ct r m cc]. destruct Hsync as [Hw [Hb Hc]].
    cbn [work_duration break_duration target_cycles] in Hw, Hb, Hc.
    method_cbv. destruct (getInt bd 1 60) as [t ok].
    destruct ok, m; repeat split; assumption.
  - destruct s as [wd bd tc th mp tot ct r m cc]. destruct Hsync as [Hw [Hb Hc]].
    cbn [work_duration break_duration target_cycles] in Hw, Hb, Hc.
    method_cbv. destruct (getInt tc 1 20) as [t ok].
    destruct ok; repeat split; assumption.
Qed.

Lemma run_in_sync ops s st :
  in_sync st s -> in_sync (settings_run (run_log ops s) st) (run ops s).
Proof.
  revert s st. induction ops as [|o ops IH]; intros s st Hsync; [exact Hsync|].
  cbn [run run_log]. rewrite settings_run_app. apply IH, step_in_sync, Hsync.
Qed.

Lemma init_from_settings_in_sync st theme mp3 :
  in_sync st (init_from_settings st theme mp3).
Proof. repeat split. Qed.

(** X6. The settings store follows the widget: after any sequence of
    commands from start-up, whatever the dialogs return, the three integers
    in the store (read with their defaults) are the work duration, break
    duration and target the widget holds. *)
Theorem settings_follow_configuration
    (st : QSettings) (theme mp3 : string) (ops : list op) :
  in_sync
    (settings_run (run_log ops (init_from_settings st theme mp3)) st)
    (run ops (init_from_settings st theme mp3)).
Proof. apply run_in_sync, init_from_settings_in_sync. Qed.

(** X7. Restarting is safe.  If the stored configuration is within the
    menu's bounds at start-up and the dialogs obey the toolkit, then after
    any sequence of commands the state [__init__] builds from the store is
    well formed, carries the configuration in force when the process
    stopped, and starts over in WORK, stopped, in round 1: progress is not
    persisted. *)
Theorem restart_is_well_formed
    (st : QSettings) (theme mp3 theme' mp3' : string) (ops : list op) :
  config_in_bounds (value st "work_duration" 25)
                   (value st "break_duration" 5)
                   (value st "target_cycles" 4) ->
  Forall op_ok ops ->
  let s := run ops (init_from_settings st theme mp3) in
  let st' :=
    settings_run (run_log ops (init_from_settings st theme mp3)) st in
  well_formed (init_from_settings st' theme' mp3') /\
  init_from_settings st' theme' mp3' =
    init (work_duration s) (break_duration s) (target_cycles s) theme' mp3'.
Proof.
  intros Hcfg Hops s st'.
  pose proof (run_in_sync ops _ st (init_from_settings_in_sync st theme mp3))
    as [Ew [Eb Ec]].
  fold s st' in Ew, Eb, Ec.
  assert (Hwf : well_formed s).
  { apply (reachable_well_formed (init_from_settings st theme mp3)).
    - apply init_well_formed. exact Hcfg.
    - apply reachable_run; [apply reach_init | exact Hops]. }
  unfold init_from_settings at 1 2. rewrite Ew, Eb, Ec.
  split; [|reflexivity].
  apply init_well_formed. exact (wf_config s Hwf).
Qed.

Lemma restart_is_well_formed_witness :
  well_formed
    (init_from_settings
       (settings_run
          (run_log [op_toggle; op_set_work (enter 50); op_tick;
                    op_set_cycles (enter 2)]
                   (init_from_settings (fun _ => None) "Doro" ""))
          (fun _ => None))
       "Cyberpunk" "").
Proof.
  apply (restart_is_well_formed (fun _ => None) "Doro" "" "Cyberpunk" ""
           [op_toggle; op_set_work (enter 50); op_tick;
            op_set_cycles (enter 2)]).
  - unfold config_in_bounds. cbn. lia.
  - repeat (apply Forall_cons;
            [cbn; first [exact I | apply enter_in_range]|]).
    apply Forall_nil.
Defined.

(** * The audio manager *)

Lemma audio_step_device env a e :
  is_ready (audio_step env a e) = is_ready a /\
  builtin_alarm (audio_step env a e) = builtin_alarm a /\
  (is_ready a = false -> audio_step env a e = a).
Proof.
  destruct a as [rdy bi mu]. destruct e; cbn [audio_step]; try (repeat split).
  - unfold play, load_and_loop. cbn [is_ready builtin_alarm set_music].
    destruct rdy; cbn [negb]; [|reflexivity].
    destruct (truthy file_path && path_exists env file_path).
    + destruct (mixer_loads env file_path); reflexivity.
    + destruct bi as [b|]; [|reflexivity].
      destruct (truthy b); [|reflexivity].
      destruct (mixer_loads env b); reflexivity.
  - unfold play, load_and_loop. cbn [is_ready builtin_alarm set_music].
    destruct rdy; cbn [negb]; [|reflexivity].
    destruct (truthy file_path && path_exists env file_path).
    + destruct (mixer_loads env file_path); reflexivity.
    + destruct bi as [b|]; [|reflexivity].
      destruct (truthy b); [|reflexivity].
      destruct (mixer_loads env b); reflexivity.
  - cbn [is_ready]. intros ->. reflexivity.
  - unfold stop. cbn [is_ready]. destruct rdy; reflexivity.
  - unfold stop. cbn [is_ready]. destruct rdy; reflexivity.
  - cbn [is_ready]. intros ->. reflexivity.
Qed.

Lemma audio_run_device env evs a :
  is_ready (audio_run env evs a) = is_ready a /\
  builtin_alarm (audio_run env evs a) = builtin_alarm a /\
  (is_ready a = false -> audio_run env evs a = a).
Proof.
  revert a. induction evs as [|e evs IH]; intros a; [repeat split|].
  cbn [audio_run fold_left].
  destruct (audio_step_device env a e) as [Hr [Hb Hi]].
  destruct (IH (audio_step env a e)) as [Hr' [Hb' Hi']].
  unfold audio_run in *. rewrite Hr', Hb', Hr, Hb. repeat split.
  intros Hoff. rewrite Hi' by (rewrite Hr; exact Hoff). apply Hi, Hoff.
Qed.

(** X8. An audio manager whose mixer failed to initialise is inert: no
    sequence of [play] and [stop] calls changes it.  And no sequence of
    calls, on any manager, changes [is_ready] or the built-in tone. *)
Theorem audio_manager_inert_when_not_ready
    (env : Env) (evs : list event) (a : AudioManager) :
  is_ready (audio_run env evs a) = is_ready a /\
  builtin_alarm (audio_run env evs a) = builtin_alarm a /\
  (is_ready a = false -> audio_run env evs a = a).
Proof. apply audio_run_device. Qed.

Lemma audio_manager_inert_when_not_ready_witness :
  audio_run (mkEnv (fun _ => true) (fun _ => true))
            (events finish_cycle last_second ++ events finish_cycle on_break)
            (mkAudio false (Some "/tmp/tmpa1b2c3.wav") None)
  = mkAudio false (Some "/tmp/tmpa1b2c3.wav") None.
Proof.
  apply (audio_manager_inert_when_not_ready
           (mkEnv (fun _ => true) (fun _ => true))
           (events finish_cycle last_second ++ events finish_cycle on_break)
           (mkAudio false (Some "/tmp/tmpa1b2c3.wav") None)).
  reflexivity.
Defined.

Lemma play_forgets env p a a' :
  is_ready a' = is_ready a -> builtin_alarm a' = builtin_alarm a ->
  (is_ready a = false -> a' = a) ->
  play env p a' = play env p a.
Proof.
  intros Hr Hb Hoff. destruct (is_ready a) eqn:Ha.
  - destruct a as [rdy bi mu], a' as [rdy' bi' mu']. cbn in *. subst.
    reflexivity.
  - rewrite (Hoff eq_refl). reflexivity.
Qed.

Lemma stop_forgets a a' :
  is_ready a' = is_ready a -> builtin_alarm a' = builtin_alarm a ->
  (is_ready a = false -> a' = a) ->
  stop a' = stop a.
Proof.
  intros Hr Hb Hoff. destruct (is_ready a) eqn:Ha.
  - destruct a as [rdy bi mu], a' as [rdy' bi' mu']. cbn in *. subst.
    reflexivity.
  - rewrite (Hoff eq_refl). reflexivity.
Qed.

Lemma audio_run_snoc env evs e a :
  audio_run env (evs ++ [e]) a = audio_step env (audio_run env evs a) e.
Proof. unfold audio_run. rewrite fold_left_app. reflexivity. Qed.

(** X9. Alarms do not stack: whatever calls came before, the state of the
    audio manager after [play(p)] is the one [play(p)] gives on the initial
    manager, and after [stop()] the one [stop()] gives on it. *)
Theorem audio_depends_on_last_call
    (env : Env) (evs : list event) (p : string) (a : AudioManager) :
  audio_run env (evs ++ [ev_audio_play p]) a = play env p a /\
  audio_run env (evs ++ [ev_audio_stop]) a = stop a.
Proof.
  destruct (audio_run_device env evs a) as [Hr [Hb Hoff]].
  rewrite !audio_run_snoc. cbn [audio_step].
  split; [apply play_forgets | apply stop_forgets]; assumption.
Qed.

(** X10. Which sound [play(p)] starts on a ready manager: the custom file
    [p], the built-in tone, or nothing.  It is [p] only when [p] is a
    non-empty path of an existing file that the mixer loads, or when [p] is
    the built-in tone itself.  An existing custom file that the mixer cannot
    load leaves the manager silent, with no fall-back to the built-in tone;
    so does a missing custom file when there is no built-in tone. *)
Theorem play_selects_source (env : Env) (p : string) (a : AudioManager) :
  is_ready a = true ->
  (music (play env p a) = None \/ music (play env p a) = Some p \/
   music (play env p a) = builtin_alarm a) /\
  (music (play env p a) = Some p ->
     truthy p && path_exists env p && mixer_loads env p = true \/
     builtin_alarm a = Some p) /\
  (truthy p = true -> path_exists env p = true -> mixer_loads env p = false ->
     music (play env p a) = None) /\
  (truthy p && path_exists env p = false -> builtin_alarm a = None ->
     music (play env p a) = None).
Proof.
  intros Hr. destruct a as [rdy bi mu]. cbn in Hr. subst rdy.
  unfold play, load_and_loop.
  cbn [is_ready negb builtin_alarm set_music music].
  split; [|split; [|split]].
  - destruct (truthy p && path_exists env p).
    + destruct (mixer_loads env p); cbn; auto.
    + destruct bi as [b|]; cbn; auto.
      destruct (truthy b); cbn; auto.
      destruct (mixer_loads env b); cbn; auto.
  - destruct (truthy p && path_exists env p) eqn:E1.
    + destruct (mixer_loads env p) eqn:E2; cbn; [auto | discriminate].
    + destruct bi as [b|]; cbn; [|discriminate].
      destruct (truthy b); cbn; [|discriminate].
      destruct (mixer_loads env b); cbn; [|discriminate].
      intros H. right. exact H.
  - intros Ht He Hl. rewrite Ht, He, Hl. reflexivity.
  - intros Hno Hb. cbn in Hb. subst bi. rewrite Hno. reflexivity.
Qed.

(** A corrupt custom file on disk: the alarm stays silent although a
    built-in tone is at hand. *)
Lemma play_selects_source_witness :
  music (play (mkEnv (fun _ => true) (fun p => String.eqb p "/tmp/tone.wav"))
              "/home/u/bad.mp3"
              (mkAudio true (Some "/tmp/tone.wav") None)) = None.
Proof.
  apply (proj1 (proj2 (proj2 (play_selects_source
    (mkEnv (fun _ => true) (fun p => String.eqb p "/tmp/tone.wav"))
    "/home/u/bad.mp3" (mkAudio true (Some "/tmp/tone.wav") None) eq_refl))));
    reflexivity.
Defined.

(** * Themes *)

Lemma Doro_in_themes : In "Doro" themes.
Proof. left. reflexivity. Qed.

Lemma themes_mem name :
  existsb (String.eqb name) themes = true <-> In name themes.
Proof.
  rewrite existsb_exists. split.
  - intros [x [Hin Heq]]. apply String.eqb_eq in Heq. subst x. exact Hin.
  - intros Hin. exists name. split; [exact Hin | apply String.eqb_refl].
Qed.

Lemma themes_get_cases name :
  (In name themes -> themes_get name = name) /\
  (~ In name themes -> themes_get name = "Doro").
Proof.
  unfold themes_get. split; intros H.
  - rewrite (proj2 (themes_mem name) H). reflexivity.
  - destruct (existsb (String.eqb name) themes) eqn:E; [|reflexivity].
    apply themes_mem in E. contradiction.
Qed.

(** X11. Theme lookup never fails: [themes.get(name, themes["Doro"])] always
    yields an entry of the catalog, the named one when the name is in the
    catalog and "Doro" for every other name; looking up the result again
    changes nothing. *)
Theorem themes_get_total (name : string) :
  In (themes_get name) themes /\
  (In name themes -> themes_get name = name) /\
  (~ In name themes -> themes_get name = "Doro") /\
  themes_get (themes_get name) = themes_get name.
Proof.
  unfold themes_get at 1 2 3.
  destruct (existsb (String.eqb name) themes) eqn:E.
  - apply themes_mem in E. repeat split; auto.
    + intros Hn. contradiction.
    + unfold themes_get. apply themes_mem in E. rewrite E.
      apply themes_mem in E. rewrite (proj2 (themes_mem name) E). reflexivity.
  - assert (Hn : ~ In name themes).
    { intros Hin. apply themes_mem in Hin. congruence. }
    repeat split; auto using Doro_in_themes.
    + intros Hin. contradiction.
    + unfold themes_get. rewrite E. reflexivity.
Qed.

Lemma themes_get_total_witness :
  themes_get "Cyberpunk" = "Cyberpunk" /\ themes_get "Solarized" = "Doro".
Proof.
  split.
  - apply (proj1 (proj2 (themes_get_total "Cyberpunk"))).
    cbn. tauto.
  - apply (proj1 (proj2 (proj2 (themes_get_total "Solarized")))).
    intros Hin. apply themes_mem in Hin. vm_compute in Hin. discriminate.
Defined.

(** X12. Only the theme "Doro" has a character image: the pixmap is set
    only from "doro.png", only when that file exists, and only when the
    current theme name is "Doro" or is not in the catalog (and so falls
    back to "Doro"); every other theme of the catalog clears it. *)
Theorem load_theme_image_only_doro (env : Env) (name : string) :
  (forall img, load_theme_image env name = Some img ->
     img = "doro.png" /\ path_exists env "doro.png" = true /\
     (name = "Doro" \/ ~ In name themes)) /\
  (In name themes -> name <> "Doro" -> load_theme_image env name = None) /\
  (path_exists env "doro.png" = true -> ~ In name themes ->
     load_theme_image env name = Some "doro.png").
Proof.
  destruct (themes_get_cases name) as [Hin Hout].
  unfold load_theme_image, char_img.
  split; [|split].
  - intros img. destruct (String.eqb_spec (themes_get name) "Doro") as [E|E];
      [|discriminate].
    cbn [truthy]. change (truthy "doro.png") with true. cbn [andb].
    destruct (path_exists env "doro.png") eqn:Hp; [|discriminate].
    intros H. injection H as <-. repeat split.
    destruct (in_dec string_dec name themes) as [Hi|Hi]; [|right; exact Hi].
    left. rewrite <- (Hin Hi). exact E.
  - intros Hi Hne. rewrite (Hin Hi).
    destruct (String.eqb_spec name "Doro"); [contradiction | reflexivity].
  - intros Hp Hi. rewrite (Hout Hi). cbn. rewrite Hp. reflexivity.
Qed.

Lemma load_theme_image_only_doro_witness :
  load_theme_image (mkEnv (fun _ => true) (fun _ => true)) "Cyberpunk" = None
  /\
  load_theme_image (mkEnv (fun _ => true) (fun _ => true)) "Solarized"
    = Some "doro.png".
Proof.
  split.
  - apply (proj1 (proj2 (load_theme_image_only_doro
      (mkEnv (fun _ => true) (fun _ => true)) "Cyberpunk"))).
    + cbn. tauto.
    + discriminate.
  - apply (proj2 (proj2 (load_theme_image_only_doro
      (mkEnv (fun _ => true) (fun _ => true)) "Solarized"))).
    + reflexivity.
    + intros Hin. apply themes_mem in Hin. vm_compute in Hin. discriminate.
Defined.

(** * Docking *)

Ltac dock_cases :=
  unfold check_docking, resting_place, set_dock_pos, moved_to, topLeft,
    rect_top, rect_left, rect_right, QPoint_eqb, dock_is, Dock_eqb,
    window_size, snap_margin, pull_dist in *;
  cbn [fst snd dock_pos timer drag_pos is_hovering_btn rect_x rect_y
       rect_width rect_height negb andb] in *;
  rewrite ?Z.gtb_ltb in *;
  repeat (match goal with
          | |- context [?a <? ?b] => destruct (Z.ltb_spec a b)
          | |- context [?a =? ?b] => destruct (Z.eqb_spec a b)
          end;
          try (exfalso; lia));
  cbn [fst snd dock_pos timer drag_pos is_hovering_btn rect_x rect_y
       rect_width rect_height negb andb] in *.

(** X13. Snapping from the free state, with the left button up and the
    window at its fixed size.  The window stays free exactly when it is
    outside the 20-pixel margin of the top, left and right screen edges (and
    then nothing changes and nothing is animated); otherwise it docks, the
    top edge taking precedence over the left and the left over the right,
    the dock is not released again by the pull-back test of the same call,
    and the window comes to rest flush with the chosen edge. *)
Theorem snap_from_free (geo : QRect) (screen_width : Z) (sh : Shell) :
  dock_pos sh = None -> rect_width geo = window_size ->
  let r := check_docking false geo screen_width sh in
  (dock_pos (fst r) = None <->
     snap_margin <= rect_top geo /\ snap_margin <= rect_left geo /\
     rect_right geo <= screen_width - snap_margin) /\
  (dock_pos (fst r) = None -> r = (sh, None)) /\
  (rect_top geo < snap_margin ->
     fst r = set_dock_pos (Some dock_top) sh /\
     resting_place geo r = (rect_x geo, 0)) /\
  (snap_margin <= rect_top geo -> rect_left geo < snap_margin ->
     fst r = set_dock_pos (Some dock_left) sh /\
     resting_place geo r = (0, rect_y geo)) /\
  (snap_margin <= rect_top geo -> snap_margin <= rect_left geo ->
   screen_width - snap_margin < rect_right geo ->
     fst r = set_dock_pos (Some dock_right) sh /\
     resting_place geo r = (screen_width - window_size, rect_y geo)).
Proof.
  intros Hfree Hw r. subst r.
  destruct sh as [tm dp dr hv], geo as [x y w h].
  cbn [dock_pos rect_width] in Hfree, Hw. subst dp.
  unfold window_size in Hw. subst w.
  split; [|split; [|split; [|split]]].
  - dock_cases; split; intros ?; try discriminate; try lia; try reflexivity.
  - dock_cases; intros ?; try discriminate; try lia; reflexivity.
  - intros Ht. dock_cases; try lia; split; try reflexivity; f_equal; lia.
  - intros Ht Hl. dock_cases; try lia; split; try reflexivity; f_equal; lia.
  - intros Ht Hl Hr.
    dock_cases; try lia; split; try reflexivity; f_equal; lia.
Qed.

Lemma snap_from_free_witness :
  dock_pos (fst (check_docking false (mkRect 1650 400 260 260) 1920
                   (mkShell default_init None None false)))
    = Some dock_right /\
  resting_place (mkRect 1650 400 260 260)
    (check_docking false (mkRect 1650 400 260 260) 1920
       (mkShell default_init None None false)) = (1920 - 260, 400).
Proof.
  destruct (proj2 (proj2 (proj2 (proj2
    (snap_from_free (mkRect 1650 400 260 260) 1920
       (mkShell default_init None None false) eq_refl eq_refl)))))
    as [Hd Hp];
    try (unfold snap_margin, rect_top, rect_left, rect_right; cbn; lia).
  split; [rewrite Hd; reflexivity | exact Hp].
Defined.

Lemma check_docking_docked geo screen_width sh d :
  dock_pos sh = Some d ->
  check_docking false geo screen_width sh =
    (set_dock_pos (if pulled_back d geo screen_width then None else Some d) sh,
     if QPoint_eqb (topLeft geo) (dock_target d geo screen_width) then None
     else Some (dock_target d geo screen_width)).
Proof.
  intros Hd. unfold check_docking. rewrite Hd.
  unfold pulled_back, dock_target, dock_is.
  destruct d; cbn [Dock_eqb andb];
    match goal with
    | |- context [QPoint_eqb ?p ?q] => destruct (QPoint_eqb p q)
    end; cbn [negb];
    destruct (rect_y geo >? pull_dist), (rect_x geo >? pull_dist),
      (rect_x geo <? screen_width - window_size - pull_dist); reflexivity.
Qed.

Lemma check_docking_free geo screen_width sh :
  dock_pos sh = None ->
  check_docking false geo screen_width sh =
    match snap_edge geo screen_width with
    | Some d =>
        check_docking false geo screen_width (set_dock_pos (Some d) sh)
    | None => (sh, None)
    end.
Proof.
  intros Hd. unfold check_docking, snap_edge. rewrite Hd.
  cbn [set_dock_pos dock_pos].
  destruct (rect_top geo <? snap_margin); [reflexivity|].
  destruct (rect_left geo <? snap_margin); [reflexivity|].
  destruct (rect_right geo >? screen_width - snap_margin); reflexivity.
Qed.

(** A window resting at its dock target is neither animated nor released. *)
Lemma rests_at_target d geo screen_width :
  pulled_back d (moved_to (dock_target d geo screen_width) geo) screen_width
    = false /\
  QPoint_eqb (dock_target d geo screen_width)
    (dock_target d (moved_to (dock_target d geo screen_width) geo)
       screen_width) = true.
Proof.
  unfold pulled_back, dock_target, moved_to, QPoint_eqb, window_size,
    pull_dist.
  destruct d; cbn [fst snd rect_x rect_y]; rewrite ?Z.gtb_ltb, !Z.eqb_refl;
    split; try reflexivity; apply Z.ltb_ge; lia.
Qed.

Lemma docked_call_settles geo screen_width sh d :
  dock_pos sh = Some d ->
  let r := check_docking false geo screen_width sh in
  dock_pos (fst r) = Some d ->
  check_docking false (moved_to (resting_place geo r) geo) screen_width
                (fst r) = (fst r, None).
Proof.
  intros Hd r Hkeep. subst r.
  rewrite (check_docking_docked geo screen_width sh d Hd) in *.
  cbn [fst snd] in *.
  destruct (pulled_back d geo screen_width) eqn:Hp;
    [destruct sh; discriminate|].
  assert (Hrest : resting_place geo
            (set_dock_pos (Some d) sh,
             if QPoint_eqb (topLeft geo) (dock_target d geo screen_width)
             then None else Some (dock_target d geo screen_width))
          = dock_target d geo screen_width).
  { unfold resting_place. cbn [snd].
    destruct (QPoint_eqb (topLeft geo) (dock_target d geo screen_width))
      eqn:E; [|reflexivity].
    unfold QPoint_eqb in E. apply andb_prop in E. destruct E as [E1 E2].
    apply Z.eqb_eq in E1, E2.
    destruct (dock_target d geo screen_width) as [tx ty].
    unfold topLeft in *. cbn [fst snd] in *. congruence. }
  rewrite Hrest.
  rewrite (check_docking_docked _ screen_width (set_dock_pos (Some d) sh) d)
    by reflexivity.
  destruct (rests_at_target d geo screen_width) as [Hnp Heq].
  rewrite Hnp.
  unfold topLeft at 1, moved_to at 1. cbn [rect_x rect_y].
  rewrite <- surjective_pairing, Heq.
  destruct sh; reflexivity.
Qed.

(** X14. Docking settles in one step: when a call of [check_docking] leaves
    the window docked, a further call made once the window rests where that
    call sent it changes nothing and starts no animation. *)
Theorem docking_settles
    (geo : QRect) (screen_width : Z) (sh : Shell) (d : Dock) :
  let r := check_docking false geo screen_width sh in
  dock_pos (fst r) = Some d ->
  check_docking false (moved_to (resting_place geo r) geo) screen_width
                (fst r) = (fst r, None).
Proof.
  intros r. subst r.
  destruct (dock_pos sh) as [d0|] eqn:Hd.
  - intros Hkeep.
    assert (d0 = d).
    { rewrite (check_docking_docked geo screen_width sh d0 Hd) in Hkeep.
      cbn [fst] in Hkeep.
      destruct (pulled_back d0 geo screen_width); destruct sh;
        [discriminate | injection Hkeep as ->; reflexivity]. }
    subst d0. apply (docked_call_settles geo screen_width sh d Hd Hkeep).
  - rewrite (check_docking_free geo screen_width sh Hd).
    destruct (snap_edge geo screen_width) as [e|].
    + intros Hkeep.
      assert (e = d).
      { rewrite (check_docking_docked geo screen_width
                   (set_dock_pos (Some e) sh) e eq_refl) in Hkeep.
        cbn [fst] in Hkeep.
        destruct (pulled_back e geo screen_width); destruct sh;
          [discriminate | injection Hkeep as ->; reflexivity]. }
      subst e.
      apply (docked_call_settles geo screen_width (set_dock_pos (Some d) sh) d
               eq_refl Hkeep).
    + cbn [fst]. rewrite Hd. discriminate.
Qed.

Lemma docking_settles_witness :
  check_docking false (mkRect 300 0 260 260) 1920
    (mkShell default_init (Some dock_top) None false)
  = (mkShell default_init (Some dock_top) None false, None).
Proof.
  apply (docking_settles (mkRect 300 12 260 260) 1920
           (mkShell default_init None None false) dock_top).
  reflexivity.
Defined.

(** X15. Pulling a docked window more than 50 pixels away from its edge
    with the left button up releases the dock, but the same call has already
    started the animation back to that edge; once the window (of the fixed
    size) rests there, the next call docks it again. *)
Theorem release_sends_window_back
    (geo : QRect) (screen_width : Z) (sh : Shell) (d : Dock) :
  dock_pos sh = Some d ->
  let r := check_docking false geo screen_width sh in
  dock_pos (fst r) = None ->
  snd r = Some (match d with
                | dock_top => (rect_x geo, 0)
                | dock_left => (0, rect_y geo)
                | dock_right => (screen_width - window_size, rect_y geo)
                end) /\
  (rect_width geo = window_size ->
   dock_pos (fst (check_docking false (moved_to (resting_place geo r) geo)
                    screen_width (fst r))) <> None).
Proof.
  intros Hd r Hrel. subst r.
  rewrite (check_docking_docked geo screen_width sh d Hd) in *.
  cbn [fst snd] in *.
  destruct (pulled_back d geo screen_width) eqn:Hp;
    [|destruct sh; discriminate].
  assert (Hne : QPoint_eqb (topLeft geo) (dock_target d geo screen_width)
                = false).
  { apply not_true_is_false. intros E.
    unfold QPoint_eqb in E. apply andb_prop in E. destruct E as [E1 E2].
    apply Z.eqb_eq in E1, E2. revert Hp E1 E2.
    unfold pulled_back, dock_target, topLeft, window_size, pull_dist.
    destruct d; cbn [fst snd]; rewrite ?Z.gtb_ltb; intros Hp E1 E2;
      apply Z.ltb_lt in Hp; lia. }
  rewrite Hne. split; [destruct d; reflexivity|].
  intros Hw. unfold resting_place. cbn [snd].
  rewrite (check_docking_free _ screen_width (set_dock_pos None sh))
    by reflexivity.
  assert (Hsnap : exists e,
            snap_edge (moved_to (dock_target d geo screen_width) geo)
                      screen_width = Some e /\
            pulled_back e (moved_to (dock_target d geo screen_width) geo)
                        screen_width = false).
  { unfold snap_edge, pulled_back, dock_target, moved_to, rect_top, rect_left,
      rect_right, window_size, snap_margin, pull_dist in *.
    destruct geo as [x y w h]. cbn [rect_x rect_y rect_width fst snd] in *.
    subst w. rewrite ?Z.gtb_ltb.
    destruct d; cbn [fst snd];
      repeat match goal with
             | |- context [?a <? ?b] => destruct (Z.ltb_spec a b)
             end;
      try lia; eexists; (split; [reflexivity|]);
      cbn; rewrite ?Z.gtb_ltb;
      first [reflexivity | apply Z.ltb_ge; lia]. }
  destruct Hsnap as [e [Hs He]]. rewrite Hs.
  rewrite (check_docking_docked _ screen_width _ e) by reflexivity.
  rewrite He. destruct sh; discriminate.
Qed.

Lemma release_sends_window_back_witness :
  snd (check_docking false (mkRect 300 80 260 260) 1920
         (mkShell default_init (Some dock_top) None false)) = Some (300, 0).
Proof.
  apply (release_sends_window_back (mkRect 300 80 260 260) 1920
           (mkShell default_init (Some dock_top) None false) dock_top
           eq_refl).
  reflexivity.
Defined.

(** * The mouse *)

Lemma toggle_timer_changes s : exec toggle_timer s <> s.
Proof.
  destruct s as [wd bd tc th mp tot ct r m cc]. intros H.
  apply (f_equal is_running) in H. cbn in H. destruct r; discriminate.
Qed.

(** X16. A left click starts or stops the timer exactly where moving the
    pointer turns the button highlight on: on a free (undocked) window with
    the pointer strictly between [height / 2 + 30] and [height - 40].
    There the click toggles the timer and leaves the drag anchor alone;
    anywhere else, and everywhere on a docked window, it leaves the timer
    alone and records the drag anchor [global - frame top-left]. *)
Theorem click_toggles_where_hover_shows
    (y : QArith_base.Q) (height : Z) (global global' frame_top_left : QPoint)
    (left_only : bool) (point_truthy : QPoint -> bool) (sh : Shell) :
  let hover :=
    is_hovering_btn
      (fst (mouseMoveEvent left_only y global' height point_truthy sh)) in
  let pressed := mousePressEvent LeftButton y global frame_top_left height sh in
  (hover = true <-> timer (fst pressed) <> timer sh) /\
  (hover = true ->
     timer (fst pressed) = exec toggle_timer (timer sh) /\
     drag_pos (fst pressed) = drag_pos sh) /\
  (hover = false ->
     timer (fst pressed) = timer sh /\
     drag_pos (fst pressed) = Some (QPoint_sub global frame_top_left)) /\
  (dock_pos sh <> None -> hover = false).
Proof.
  intros hover pressed.
  assert (Hh : hover = over_button_band y height
                       && match dock_pos sh with
                          | None => true
                          | Some _ => false
                          end).
  { subst hover. unfold mouseMoveEvent.
    cbn [drag_pos dock_pos timer is_hovering_btn].
    destruct (drag_pos sh) as [d|];
      [destruct (left_only && point_truthy d)|];
      destruct (dock_pos sh); cbn; reflexivity. }
  subst pressed. unfold mousePressEvent.
  destruct (dock_pos sh) as [d|] eqn:Hd;
    destruct (over_button_band y height) eqn:Hb;
    cbn [andb negb] in *; rewrite Hh; cbn [fst snd timer drag_pos];
    (split; [split; [intros H; try discriminate;
                     apply toggle_timer_changes
                    | intros H; try reflexivity; try (exfalso; apply H;
                                                      reflexivity)]|]);
    (split; [intros H; try discriminate; split; reflexivity|]);
    (split; [intros H; try discriminate; split; reflexivity|]);
    intros H; try reflexivity; exfalso; apply H; reflexivity.
Qed.

Lemma click_toggles_where_hover_shows_witness :
  timer (fst (mousePressEvent LeftButton (QArith_base.inject_Z 175)
                (900, 500) (830, 325) 260
                (mkShell default_init None None false)))
    = exec toggle_timer default_init /\
  timer (fst (mousePressEvent LeftButton (QArith_base.inject_Z 175)
                (900, 500) (830, 325) 260
                (mkShell default_init (Some dock_left) None false)))
    = default_init.
Proof.
  split.
  - apply (proj1 (proj2 (click_toggles_where_hover_shows
      (QArith_base.inject_Z 175) 260 (900, 500) (900, 500) (830, 325) false
      (fun _ => true) (mkShell default_init None None false)))).
    reflexivity.
  - apply (proj1 (proj2 (proj2 (click_toggles_where_hover_shows
      (QArith_base.inject_Z 175) 260 (900, 500) (900, 500) (830, 325) false
      (fun _ => true) (mkShell default_init (Some dock_left) None false))))).
    reflexivity.
Defined.

(** X17. Dragging.  After a left press that does not hit the button, a move
    with the left button held sends the window to its old top-left corner
    plus the displacement of the pointer, releases a dock if there was one
    (asking for a repaint), and never touches the timer.  This needs the
    binding to count the recorded anchor as true. *)
Theorem drag_translates_window
    (y y' : QArith_base.Q) (height : Z)
    (global global' frame_top_left : QPoint)
    (point_truthy : QPoint -> bool) (sh : Shell) :
  (match dock_pos sh with None => true | Some _ => false end)
    && over_button_band y height = false ->
  point_truthy (QPoint_sub global frame_top_left) = true ->
  let pressed :=
    fst (mousePressEvent LeftButton y global frame_top_left height sh) in
  let r := mouseMoveEvent true y' global' height point_truthy pressed in
  snd r =
    (match dock_pos sh with Some _ => [sh_update] | None => [] end)
    ++ [sh_move (fst frame_top_left + (fst global' - fst global),
                 snd frame_top_left + (snd global' - snd global));
        sh_accept] /\
  dock_pos (fst r) = None /\
  timer (fst r) = timer sh.
Proof.
  intros Hmiss Htrue pressed r. subst r pressed.
  unfold mousePressEvent. rewrite Hmiss.
  unfold mouseMoveEvent. cbn [fst snd drag_pos dock_pos timer is_hovering_btn
    andb]. rewrite Htrue.
  assert (Hp : QPoint_sub global' (QPoint_sub global frame_top_left) =
               (fst frame_top_left + (fst global' - fst global),
                snd frame_top_left + (snd global' - snd global))).
  { unfold QPoint_sub. cbn [fst snd]. f_equal; lia. }
  destruct (dock_pos sh) as [d|]; cbn [fst snd set_dock_pos dock_pos timer app];
    rewrite Hp; repeat split.
Qed.

Lemma drag_translates_window_witness :
  snd (mouseMoveEvent true (QArith_base.inject_Z 60) (950, 480) 260
         (fun _ => true)
         (fst (mousePressEvent LeftButton (QArith_base.inject_Z 60)
                 (900, 500) (830, 440) 260
                 (mkShell default_init (Some dock_left) None false))))
  = [sh_update; sh_move (830 + (950 - 900), 440 + (480 - 500)); sh_accept].
Proof.
  apply (drag_translates_window (QArith_base.inject_Z 60)
           (QArith_base.inject_Z 60) 260 (900, 500) (950, 480) (830, 440)
           (fun _ => true) (mkShell default_init (Some dock_left) None false));
    reflexivity.
Defined.

(** * The display *)

Lemma clock_text_table :
  forallb
    (fun k =>
       let t := Z.of_nat k in
       Nat.eqb (String.length (fmt_02d (t mod 60))) 2
       && Nat.eqb (String.length (fmt_02d (t / 60)))
                  (if t <? 6000 then 2%nat else 3%nat)
       && Nat.eqb (String.length (time_str t))
                  (if t <? 6000 then 5%nat else 6%nat))
    (seq 0 (Z.to_nat 7201)) = true.
Proof. vm_compute. reflexivity. Qed.

Lemma clock_text_bounded t :
  0 <= t <= 7200 ->
  String.length (fmt_02d (t mod 60)) = 2%nat /\
  String.length (fmt_02d (t / 60)) = (if t <? 6000 then 2%nat else 3%nat) /\
  String.length (time_str t) = (if t <? 6000 then 5%nat else 6%nat).
Proof.
  intros Ht.
  pose proof (proj1 (forallb_forall _ _) clock_text_table (Z.to_nat t)) as H.
  cbv beta zeta in H. rewrite Z2Nat.id in H by lia.
  assert (Hin : In (Z.to_nat t) (seq 0 (Z.to_nat 7201)))
    by (apply in_seq; lia).
  specialize (H Hin).
  apply andb_prop in H. destruct H as [H H3].
  apply andb_prop in H. destruct H as [H1 H2].
  apply Nat.eqb_eq in H1, H2, H3. auto.
Qed.

(** X18. The clock text.  In every state reached from a start-up within the
    menu's bounds, the text both layouts draw is the minutes, a colon and
    the seconds, with the seconds always on two characters and the minutes
    on two characters below 100 minutes and on three from 100:00 to 120:00;
    so the text has five characters, or six for the longest work segments. *)
Theorem clock_text_shape
    (w b c : Z) (theme mp3 : string) (s : UltimatePomodoro) :
  config_in_bounds w b c ->
  reachable (init w b c theme mp3) s ->
  0 <= current_time s mod 60 < 60 /\
  current_time s / 60 * 60 + current_time s mod 60 = current_time s /\
  String.length (fmt_02d (current_time s mod 60)) = 2%nat /\
  String.length (fmt_02d (current_time s / 60)) =
    (if current_time s <? 6000 then 2%nat else 3%nat) /\
  String.length (time_str (current_time s)) =
    (if current_time s <? 6000 then 5%nat else 6%nat).
Proof.
  intros Hcfg Hreach.
  pose proof (reachable_well_formed _ _
                (init_well_formed w b c theme mp3 Hcfg) Hreach) as Hwf.
  assert (Htot : total_time s = active_duration s * 60).
  { clear Hwf. induction Hreach as [|s o Hreach IH Hok]; [reflexivity|].
    apply step_total_time. exact IH. }
  destruct Hwf as [[Hw [Hb Hc]] Hcy Ht].
  assert (Hrange : 0 <= current_time s <= 7200).
  { unfold active_duration in Htot. destruct (Mode_eqb (mode s) WORK); lia. }
  split; [apply Z.mod_pos_bound; lia|].
  split; [pose proof (Z.div_mod (current_time s) 60); lia|].
  apply clock_text_bounded. exact Hrange.
Qed.

Lemma clock_text_shape_witness :
  String.length (time_str (current_time on_break)) =
    (if current_time on_break <? 6000 then 5%nat else 6%nat).
Proof.
  apply (clock_text_shape 25 5 4 "Doro" "" on_break).
  - unfold config_in_bounds. lia.
  - exact on_break_reachable.
Defined.

(** X19. The urgent look (red ring and text) is shown for exactly the last
    five seconds of a running segment: [k] ticks into the segment, with the
    segment not yet used up, [is_urgent] holds if and only if at most five
    seconds are left; a paused timer is never shown urgent. *)
Theorem urgent_for_the_last_five_seconds (s : UltimatePomodoro) (k : nat) :
  (is_running s = true -> Z.of_nat k < current_time s ->
     (is_urgent (ticks k s) = true <-> current_time s - Z.of_nat k <= 5)) /\
  (is_running s = false -> is_urgent (ticks k s) = false).
Proof.
  split.
  - intros Hr Hlt. rewrite (ticks_within_segment k s Hr Hlt).
    unfold is_urgent. cbn [current_time is_running]. rewrite andb_true_r.
    apply Z.leb_le.
  - intros Hr. rewrite (ticks_paused k s Hr). unfold is_urgent. rewrite Hr.
    apply andb_false_r.
Qed.

Lemma urgent_for_the_last_five_seconds_witness :
  is_urgent (ticks 1495 (exec toggle_timer default_init)) = true.
Proof.
  apply (proj1 (urgent_for_the_last_five_seconds
                  (exec toggle_timer default_init) 1495) eq_refl).
  - cbn. lia.
  - cbn. lia.
Defined.

(** * The context menu *)



(** * Menu commands *)

(** X21. The alarm file picked in the file dialog is the one the next
    [finish_cycle] hands to the audio manager, and a ready manager loops it
    while the notification is shown when the file exists and loads; picking
    a file changes nothing else in the timer.  Cancelling the dialog changes
    nothing and calls nothing. *)
Theorem chosen_alarm_is_played
    (env : Env) (file_path : string) (s : UltimatePomodoro) (a : AudioManager) :
  (truthy file_path = false -> choose_mp3 file_path s = (s, [])) /\
  (truthy file_path = true ->
     let s' := fst (choose_mp3 file_path s) in
     s' = with_custom_mp3_path file_path s /\
     exec finish_cycle s' =
       with_custom_mp3_path file_path (exec finish_cycle s) /\
     nth_error (events finish_cycle s') 1 = Some (ev_audio_play file_path) /\
     (is_ready a = true -> path_exists env file_path = true ->
      mixer_loads env file_path = true ->
      music (audio_run env (until_dialog (events finish_cycle s')) a)
        = Some file_path)).
Proof.
  unfold choose_mp3. split; intros Ht; rewrite Ht; [reflexivity|].
  cbn [fst]. split; [reflexivity|].
  split.
  { destruct s as [wd bd tc th mp tot ct r m cc]. unfold with_custom_mp3_path.
    method_cbv. destruct m; [reflexivity|].
    destruct (cc >=? tc); reflexivity. }
  rewrite finish_cycle_log. split; [reflexivity|].
  intros Hr He Hl.
  cbn [until_dialog is_dialog audio_run fold_left audio_step].
  unfold with_custom_mp3_path. cbn [custom_mp3_path].
  unfold play, load_and_loop. rewrite Hr, Ht, He, Hl. reflexivity.
Qed.

Lemma chosen_alarm_is_played_witness :
  nth_error (events finish_cycle
               (fst (choose_mp3 "/home/u/gong.mp3" last_second))) 1
    = Some (ev_audio_play "/home/u/gong.mp3").
Proof.
  apply (proj2 (chosen_alarm_is_played
                  (mkEnv (fun _ => true) (fun _ => true))
                  "/home/u/gong.mp3" last_second
                  (mkAudio true None None)) eq_refl).
Defined.

(** X22. Switching the theme never disturbs the timer: every timer field
    but the theme name is kept, the next notification is drawn with the
    chosen theme when it is in the catalog and with "Doro" otherwise, and
    the transition [finish_cycle] makes is the one it would have made. *)
Theorem set_theme_keeps_the_timer
    (env : Env) (name : string) (s : UltimatePomodoro) :
  let s' := fst (fst (set_theme env name s)) in
  s' = with_current_theme name s /\
  snd (fst (set_theme env name s)) = load_theme_image env name /\
  exec finish_cycle s' = with_current_theme name (exec finish_cycle s) /\
  (exists title msg,
     events finish_cycle s' =
       [ev_update; ev_audio_play (custom_mp3_path s);
        ev_dialog title msg (themes_get name); ev_audio_stop]) /\
  (In name themes -> themes_get name = name) /\
  (~ In name themes -> themes_get name = "Doro").
Proof.
  cbn [set_theme fst snd].
  split; [reflexivity|]. split; [reflexivity|].
  split.
  { destruct s as [wd bd tc th mp tot ct r m cc]. unfold with_current_theme.
    method_cbv. destruct m; [reflexivity|].
    destruct (cc >=? tc); reflexivity. }
  split; [rewrite finish_cycle_log; eauto|].
  unfold themes_get.
  split; intros H.
  - rewrite (proj2 (themes_mem name) H). reflexivity.
  - destruct (existsb (String.eqb name) themes) eqn:E; [|reflexivity].
    apply themes_mem in E. contradiction.
Qed.

Lemma set_theme_keeps_the_timer_witness :
  themes_get "Mint Chocolate" = "Mint Chocolate".
Proof.
  apply (proj1 (proj2 (proj2 (proj2 (proj2
    (set_theme_keeps_the_timer (mkEnv (fun _ => false) (fun _ => true))
       "Mint Chocolate" default_init)))))).
  cbn. tauto.
Defined.

(** X23. Reset restarts the segment, not the plan.  [reset_timer] keeps the
    mode, the round and the configuration, stops the timer and refills the
    clock with the active mode's duration; doing it twice is doing it once;
    and once resumed, the segment ends after exactly that many seconds, in
    the state [finish_cycle] builds from the state before the reset. *)
Theorem reset_restarts_the_segment (s : UltimatePomodoro) :
  exec reset_timer s =
    mkPomodoro (work_duration s) (break_duration s) (target_cycles s)
      (current_theme s) (custom_mp3_path s)
      (active_duration s * 60) (active_duration s * 60) false (mode s)
      (current_cycle s) /\
  exec reset_timer (exec reset_timer s) = exec reset_timer s /\
  (1 <= active_duration s ->
   ticks (Z.to_nat (active_duration s * 60))
         (exec toggle_timer (exec reset_timer s)) = exec finish_cycle s /\
   notifications
     (ticks_log (Z.to_nat (active_duration s * 60))
                (exec toggle_timer (exec reset_timer s))) = 1%nat).
Proof.
  assert (E : exec reset_timer s =
    mkPomodoro (work_duration s) (break_duration s) (target_cycles s)
      (current_theme s) (custom_mp3_path s)
      (active_duration s * 60) (active_duration s * 60) false (mode s)
      (current_cycle s)).
  { unfold exec. rewrite reset_timer_eq. unfold active_duration.
    destruct (mode s); reflexivity. }
  split; [exact E|]. split.
  { rewrite E. unfold exec. rewrite reset_timer_eq. unfold active_duration.
    cbn [fst snd mode work_duration break_duration target_cycles current_theme
         custom_mp3_path current_cycle]. destruct (mode s); reflexivity. }
  intros Hpos. rewrite E.
  set (u := exec toggle_timer _).
  assert (Hu : u = mkPomodoro (work_duration s) (break_duration s)
      (target_cycles s) (current_theme s) (custom_mp3_path s)
      (active_duration s * 60) (active_duration s * 60) true (mode s)
      (current_cycle s)) by reflexivity.
  assert (Hr : is_running u = true) by (rewrite Hu; reflexivity).
  assert (Hct : current_time u = active_duration s * 60)
    by (rewrite Hu; reflexivity).
  destruct (ticks_to_expiry u Hr) as [Hs Hl]; [lia|].
  rewrite Hct in Hs, Hl. rewrite Hs, Hl, finish_cycle_notifications.
  split; [|reflexivity].
  rewrite Hu. unfold exec.
  destruct s as [wd bd tc th mp tot ct r m cc].
  cbn [work_duration break_duration target_cycles current_theme
       custom_mp3_path mode current_cycle].
  rewrite (finish_cycle_ignores_clock wd bd tc th mp tot ct r). reflexivity.
Qed.

Lemma reset_restarts_the_segment_witness :
  ticks (Z.to_nat (active_duration last_second * 60))
        (exec toggle_timer (exec reset_timer last_second))
    = exec finish_cycle last_second.
Proof.
  apply (proj2 (proj2 (reset_restarts_the_segment last_second))).
  vm_compute. discriminate.
Defined.
